(** * Idempotent consumer with a durable deduplication store

    A shallow embedding of the log aggregator's core:
    - [src/database.py]: the SQLite-backed deduplication store,
    - [src/processor.py]: the worker protocol and its statistics,
    - [src/main.py]: the publish handlers in front of the bounded queue
      and the statistics handler,
    - [src/models.py]: the validation performed when an event is built.

    Python code becomes functions in a state-and-exception monad over a
    [World] that holds what the process can observe: the database files,
    the heap of dictionary objects and the log.  The asyncio tasks are
    interleaved by an explicit schedule, one atomic step per stretch of
    code between two suspension points. *)

From Stdlib Require Import Ascii String ZArith Lia.
From stdpp Require Import base gmap strings list pretty sorting.

Open Scope string_scope.
Open Scope Z_scope.
Open Scope list_scope.

(** ** Python values: exceptions, results, log records *)

Inductive exn_class : Type :=
| ValueError
| KeyError
| SystemError
| OperationalError   (* sqlite3.OperationalError *)
| DatabaseError      (* sqlite3.DatabaseError *)
| OSError
| QueueFull                           (* asyncio.QueueFull *)
| HTTPException (status_code : Z).    (* fastapi.HTTPException *)

(** An exception object; [exn_msg] is what [str(e)] prints. *)
Record exn : Type := Exn { exn_cls : exn_class; exn_msg : string }.

Inductive result (A : Type) : Type :=
| Return (a : A)
| Raise (e : exn).
Arguments Return {A} a.
Arguments Raise {A} e.

Inductive level : Type := DEBUG | INFO | WARNING | ERROR.

Record log_record : Type := LogRecord { log_level : level; log_msg : string }.

(** ** The world of one run

    [disk] maps the path of a database file to the rows of its
    [processed_events] table, oldest first.  A row is the pair
    [(topic, event_id)]; the surrogate [id] and the [processed_at] default
    are filled in by the engine and are read by none of the operations
    embedded here.  A path without an entry has no such table (no file, or
    a file that was never initialised).

    [heap] holds the dictionary objects of the process ([stats] and its
    copies), addressed by their index; [logs] is what the loggers wrote,
    oldest first. *)

Record World : Type := mkWorld {
  disk : gmap string (list (string * string));
  heap : list (gmap string Z);
  logs : list log_record
}.

Definition set_disk (f : gmap string (list (string * string)) →
                         gmap string (list (string * string))) (w : World) : World :=
  {| disk := f (disk w); heap := heap w; logs := logs w |}.

Definition set_heap (f : list (gmap string Z) → list (gmap string Z)) (w : World) : World :=
  {| disk := disk w; heap := f (heap w); logs := logs w |}.

Definition add_log (r : log_record) (w : World) : World :=
  {| disk := disk w; heap := heap w; logs := logs w ++ [r] |}.

(** ** The monad of Python code: state that survives a raised exception *)

Definition Py (A : Type) : Type := World → result A * World.

#[global] Instance Py_ret : MRet Py := λ A a w, (Return a, w).

#[global] Instance Py_bind : MBind Py := λ A B f c w,
  match c w with
  | (Return a, w') => f a w'
  | (Raise e, w') => (Raise e, w')
  end.

Definition raise {A : Type} (e : exn) : Py A := λ w, (Raise e, w).

(** [try: body except Exception as e: handler e] *)
Definition try_except {A : Type} (body : Py A) (handler : exn → Py A) : Py A := λ w,
  match body w with
  | (Return a, w') => (Return a, w')
  | (Raise e, w') => handler e w'
  end.

Definition logger (lvl : level) (msg : string) : Py unit := λ w,
  (Return tt, add_log (LogRecord lvl msg) w).

(** ** The storage engine (sqlite3 / aiosqlite)

    Every call of the store opens its own connection, runs one statement
    and, for a write, commits.  SQLite serialises writers and a reader sees
    the table either before or after a commit, so one call is one atomic
    access to the committed table.  [sqlite_io] is the environment's part:
    whether the engine completes the call or fails it (file cannot be
    opened, database locked, disk error); a failed call leaves the
    committed table as it was. *)

Inductive sqlite_io : Type :=
| Completes
| Faults (e : exn).

Definition no_such_table : exn :=
  Exn OperationalError "no such table: processed_events".

(** CREATE TABLE IF NOT EXISTS processed_events (..., UNIQUE(topic, event_id));
    CREATE INDEX IF NOT EXISTS ...; commit *)
Definition sqlite_create_if_not_exists (path : string) (io : sqlite_io) : Py unit := λ w,
  match io with
  | Faults e => (Raise e, w)
  | Completes =>
      match disk w !! path with
      | Some _ => (Return tt, w)
      | None => (Return tt, set_disk (insert path []) w)
      end
  end.

(** SELECT 1 FROM processed_events WHERE topic = ? AND event_id = ? LIMIT 1;
    fetchone: the row [(1,)] or [None]. *)
Definition sqlite_select_1 (path topic event_id : string) (io : sqlite_io)
  : Py (option Z) := λ w,
  match io with
  | Faults e => (Raise e, w)
  | Completes =>
      match disk w !! path with
      | None => (Raise no_such_table, w)
      | Some rows =>
          if bool_decide ((topic, event_id) ∈ rows)
          then (Return (Some 1), w)
          else (Return None, w)
      end
  end.

(** INSERT OR IGNORE INTO processed_events (topic, event_id) VALUES (?, ?);
    commit.  The result is the cursor's [rowcount]: the UNIQUE constraint
    makes the engine ignore a pair that is already there. *)
Definition sqlite_insert_or_ignore (path topic event_id : string) (io : sqlite_io)
  : Py Z := λ w,
  match io with
  | Faults e => (Raise e, w)
  | Completes =>
      match disk w !! path with
      | None => (Raise no_such_table, w)
      | Some rows =>
          if bool_decide ((topic, event_id) ∈ rows)
          then (Return 0, w)
          else (Return 1, set_disk (insert path (rows ++ [(topic, event_id)])) w)
      end
  end.

(** ** src/database.py *)

Record Database : Type := { db_path : string }.

(** [Database._init_db] *)
Definition _init_db (self : Database) (io : sqlite_io) : Py unit :=
  sqlite_create_if_not_exists (db_path self) io ;;
  logger INFO ("Database initialized at " +:+ db_path self).

(** [Database.__init__].  [_ensure_db_dir] only creates the parent
    directory of [db_path] so that the file can be opened; directories are
    not part of [disk]. *)
Definition Database_new (path : string) (io : sqlite_io) : Py Database :=
  let self := {| db_path := path |} in
  _init_db self io ;;
  mret self.

(** [Database.is_processed] *)
Definition is_processed (self : Database) (topic event_id : string) (io : sqlite_io)
  : Py bool :=
  result ← sqlite_select_1 (db_path self) topic event_id io ;
  mret (bool_decide (result ≠ None)).

(** [Database.mark_processed] *)
Definition mark_processed (self : Database) (topic event_id : string) (io : sqlite_io)
  : Py bool :=
  try_except
    (rowcount ← sqlite_insert_or_ignore (db_path self) topic event_id io ;
     let is_new := bool_decide (0 < rowcount) in
     (if is_new
      then logger DEBUG ("Marked as processed: topic=" +:+ topic +:+ ", event_id=" +:+ event_id)
      else logger WARNING ("Duplicate detected: topic=" +:+ topic +:+ ", event_id=" +:+ event_id)) ;;
     mret is_new)
    (λ e,
     logger ERROR ("Error marking event as processed: " +:+ exn_msg e) ;;
     mret false).

(** ** Strings as Python has them

    A Python [str] is a sequence of code points, 0 to 1114111.  A [string]
    holds it in UTF-8, a surrogate encoded like any other code point of
    three bytes, so that every [str] has its [string] ([utf8]) and the
    code points are read back from it ([code_points]).  The functions
    that count or classify characters work on the code points; what they
    give on bytes that are no encoding is immaterial. *)

Definition byte (c : ascii) : Z := Z.of_nat (nat_of_ascii c).

(** the six payload bits of a continuation byte *)
Definition low6 (c : ascii) : Z := byte c mod 64.

Fixpoint code_points (s : string) : list Z :=
  match s with
  | EmptyString => []
  | String b s1 =>
      let n := byte b in
      if n <? 128 then n :: code_points s1 else
      match s1 with
      | EmptyString => [n]
      | String c1 s2 =>
          if n <? 224 then (n mod 32 * 64 + low6 c1) :: code_points s2 else
          match s2 with
          | EmptyString => [n]
          | String c2 s3 =>
              if n <? 240
              then (n mod 16 * 4096 + low6 c1 * 64 + low6 c2) :: code_points s3 else
              match s3 with
              | EmptyString => [n]
              | String c3 s4 =>
                  (n mod 8 * 262144 + low6 c1 * 4096 + low6 c2 * 64 + low6 c3)
                    :: code_points s4
              end
          end
      end
  end.

(** [s[1:]]: the string without its first character *)
Definition skip_char (s : string) : string :=
  match s with
  | EmptyString => EmptyString
  | String b s1 =>
      let n := byte b in
      if n <? 128 then s1 else
      match s1 with
      | EmptyString => EmptyString
      | String _ s2 =>
          if n <? 224 then s2 else
          match s2 with
          | EmptyString => EmptyString
          | String _ s3 =>
              if n <? 240 then s3 else
              match s3 with
              | EmptyString => EmptyString
              | String _ s4 => s4
              end
          end
      end
  end.

Definition chr (n : Z) : ascii := ascii_of_nat (Z.to_nat n).

(** the bytes of one code point *)
Definition utf8_char (c : Z) : string :=
  if c <? 128 then String (chr c) ""
  else if c <? 2048 then
    String (chr (192 + c / 64)) (String (chr (128 + c mod 64)) "")
  else if c <? 65536 then
    String (chr (224 + c / 4096))
      (String (chr (128 + c / 64 mod 64)) (String (chr (128 + c mod 64)) ""))
  else
    String (chr (240 + c / 262144))
      (String (chr (128 + c / 4096 mod 64))
         (String (chr (128 + c / 64 mod 64)) (String (chr (128 + c mod 64)) ""))).

Fixpoint utf8 (cs : list Z) : string :=
  match cs with
  | [] => ""
  | c :: rest => utf8_char c +:+ utf8 rest
  end.

(** [str.isspace] on one character.  Python counts as whitespace the code
    points 9 to 13, 28 to 32, 133, 160, 5760 (U+1680), 8192 to 8202
    (U+2000 to U+200A), 8232, 8233 (U+2028, U+2029), 8239 (U+202F),
    8287 (U+205F) and 12288 (U+3000). *)
Definition py_isspace (c : Z) : bool :=
  ((9 <=? c) && (c <=? 13)) || ((28 <=? c) && (c <=? 32)) || (c =? 133) || (c =? 160) ||
  (c =? 5760) || ((8192 <=? c) && (c <=? 8202)) || (c =? 8232) || (c =? 8233) ||
  (c =? 8239) || (c =? 8287) || (c =? 12288).

Fixpoint py_lstrip (s : list Z) : list Z :=
  match s with
  | [] => []
  | c :: s' => if py_isspace c then py_lstrip s' else s
  end.

(** [str.strip()] with no argument, on the code points *)
Definition py_strip (s : list Z) : list Z :=
  rev (py_lstrip (rev (py_lstrip s))).

(** [s.replace(old, new)] for a one-character [old]: every occurrence *)
Fixpoint str_replace (old : ascii) (new : string) (s : string) : string :=
  match s with
  | EmptyString => EmptyString
  | String c s' =>
      if Ascii.eqb c old
      then new +:+ str_replace old new s'
      else String c (str_replace old new s')
  end.

(** [len(s)]: the number of code points *)
Definition len (s : string) : Z := Z.of_nat (length (code_points s)).

(** Replacing only a final character [old], the reading of "a trailing Z":
    this function is not in the source and serves to state that reading. *)
Fixpoint replace_trailing (old : ascii) (new : string) (s : string) : string :=
  match s with
  | EmptyString => EmptyString
  | String c EmptyString => if Ascii.eqb c old then new else s
  | String c s' => String c (replace_trailing old new s')
  end.

(** ** datetime.fromisoformat

    The validator only asks whether the library parses the string.  The
    development is parametric in that parser; [fromisoformat] below is the
    format the library documents for Python 3.7 to 3.10,
    YYYY-MM-DD[*HH[:MM[:SS[.fff[fff]]]][+HH:MM[:SS[.ffffff]]]], where * is
    any one character; later versions accept more. *)

Record datetime : Type := mkDatetime {
  year : Z; month : Z; day : Z;
  hour : Z; minute : Z; second : Z; microsecond : Z;
  utcoffset : option Z   (* microseconds east of UTC *)
}.

Definition digit (c : ascii) : option Z :=
  let n := Z.of_nat (nat_of_ascii c) in
  if (48 <=? n) && (n <=? 57) then Some (n - 48) else None.

Fixpoint parse_digits (n : nat) (acc : Z) (s : string) : option (Z * string) :=
  match n with
  | O => Some (acc, s)
  | S n' =>
      match s with
      | EmptyString => None
      | String c s' => d ← digit c; parse_digits n' (10 * acc + d) s'
      end
  end.

Definition expect (c : ascii) (s : string) : option string :=
  match s with
  | String c' s' => if Ascii.eqb c c' then Some s' else None
  | EmptyString => None
  end.

(** .fff or .ffffff, in microseconds *)
Definition parse_fraction (s : string) : option Z :=
  match String.length s with
  | 3%nat => '(f, _) ← parse_digits 3 0 s; Some (f * 1000)
  | 6%nat => '(f, _) ← parse_digits 6 0 s; Some f
  | _ => None
  end.

(** HH[:MM[:SS[.fff[fff]]]] *)
Definition parse_hh_mm_ss_ff (s : string) : option (Z * Z * Z * Z) :=
  '(h, s1) ← parse_digits 2 0 s;
  match s1 with
  | EmptyString => Some (h, 0, 0, 0)
  | String c1 s2 =>
      if negb (Ascii.eqb c1 ":") then None else
      '(m, s3) ← parse_digits 2 0 s2;
      match s3 with
      | EmptyString => Some (h, m, 0, 0)
      | String c2 s4 =>
          if negb (Ascii.eqb c2 ":") then None else
          '(sec, s5) ← parse_digits 2 0 s4;
          match s5 with
          | EmptyString => Some (h, m, sec, 0)
          | String c3 s6 =>
              if negb (Ascii.eqb c3 ".") then None else
              us ← parse_fraction s6; Some (h, m, sec, us)
          end
      end
  end.

(** The time up to the first sign, and the sign with what follows it. *)
Fixpoint split_offset (s : string) : string * option (Z * string) :=
  match s with
  | EmptyString => (EmptyString, None)
  | String c s' =>
      if Ascii.eqb c "+" then (EmptyString, Some (1, s'))
      else if Ascii.eqb c "-" then (EmptyString, Some (-1, s'))
      else let '(t, off) := split_offset s' in (String c t, off)
  end.

Definition is_leap (y : Z) : bool :=
  (y mod 4 =? 0) && (negb (y mod 100 =? 0) || (y mod 400 =? 0)).

Definition days_in_month (y m : Z) : Z :=
  if m =? 2 then (if is_leap y then 29 else 28)
  else if (m =? 4) || (m =? 6) || (m =? 9) || (m =? 11) then 30
  else 31.

Definition valid_date (y m d : Z) : bool :=
  (1 <=? y) && (y <=? 9999) && (1 <=? m) && (m <=? 12) &&
  (1 <=? d) && (d <=? days_in_month y m).

Definition valid_time (h m s : Z) : bool :=
  (h <? 24) && (m <? 60) && (s <? 60).

Definition day_us : Z := 24 * 3600 * 1000000.

(** [None] stands for the [ValueError] the library raises. *)
Definition fromisoformat (s : string) : option datetime :=
  '(y, s1) ← parse_digits 4 0 s;
  s2 ← expect "-" s1;
  '(m, s3) ← parse_digits 2 0 s2;
  s4 ← expect "-" s3;
  '(d, s5) ← parse_digits 2 0 s4;
  if negb (valid_date y m d) then None else
  match s5 with
  | EmptyString => Some (mkDatetime y m d 0 0 0 0 None)
  | String _ _ =>
      let '(t, off) := split_offset (skip_char s5) in
      '(h, mi, sec, us) ← parse_hh_mm_ss_ff t;
      if negb (valid_time h mi sec) then None else
      match off with
      | None => Some (mkDatetime y m d h mi sec us None)
      | Some (sign, tz) =>
          let n := len tz in
          if negb ((n =? 5) || (n =? 8) || (n =? 15)) then None else
          '(th, tm, tsec, tus) ← parse_hh_mm_ss_ff tz;
          let delta := ((th * 3600 + tm * 60 + tsec) * 1000000 + tus) in
          if negb (delta <? day_us) then None else
          Some (mkDatetime y m d h mi sec us (Some (sign * delta)))
      end
  end.

(** ** src/models.py *)

(** a value of a [Dict[str, Any]] payload; the core never looks inside *)
Inductive PyAny : Type :=
| PyNone
| PyBool (b : bool)
| PyInt (z : Z)
| PyStr (s : string).

Record Event : Type := mkEvent {
  topic : string;
  event_id : string;
  timestamp : string;
  source : string;
  payload : gmap string PyAny
}.

(** what a [ValidationError] lists: the field and the message *)
Record ValidationError : Type := mkValidationError {
  errors : list (string * string)
}.

Section Validation.

(** the library's parser; [None] is its [ValueError] *)
Variable parse_iso : string → option datetime.

(** [Event.validate_timestamp] *)
Definition validate_timestamp (v : string) : result string :=
  match parse_iso (str_replace "Z" "+00:00" v) with
  | Some _ => Return v
  | None => Raise (Exn ValueError "Timestamp harus dalam format ISO8601")
  end.

(** [Event.validate_event_id] *)
Definition validate_event_id (v : string) : result string :=
  if bool_decide (v = "") || bool_decide (py_strip (code_points v) = [])
  then Raise (Exn ValueError "event_id tidak boleh kosong")
  else Return v.

(** A [str] field declared with [Field(..., min_length, max_length)] and
    an optional validator: the length constraints are checked first and
    the validator runs on a value that passed them.  The wording of the
    library's own two messages is not reproduced. *)
Definition str_field (min_length max_length : option Z)
    (validator : string → result string) (v : string) : result string :=
  if from_option (λ n, len v <? n) false min_length
  then Raise (Exn ValueError "string too short")
  else if from_option (λ n, n <? len v) false max_length
  then Raise (Exn ValueError "string too long")
  else validator v.

Definition field_errors {A : Type} (name : string) (r : result A)
  : list (string * string) :=
  match r with
  | Return _ => []
  | Raise e => [(name, exn_msg e)]
  end.

(** [Event(topic=..., event_id=..., timestamp=..., source=..., payload=...)]:
    every field is validated, in the order of declaration; the event is
    built when none failed, and otherwise the failures are raised
    together. *)
Definition Event_new (topic_ event_id_ timestamp_ source_ : string)
    (payload_ : gmap string PyAny) : ValidationError + Event :=
  let r_topic := str_field (Some 1) (Some 255) Return topic_ in
  let r_event_id := str_field (Some 1) None validate_event_id event_id_ in
  let r_timestamp := str_field None None validate_timestamp timestamp_ in
  let r_source := str_field (Some 1) None Return source_ in
  match r_topic, r_event_id, r_timestamp, r_source with
  | Return t, Return e, Return ts, Return s => inr (mkEvent t e ts s payload_)
  | _, _, _, _ =>
      inl (mkValidationError
             (field_errors "topic" r_topic ++ field_errors "event_id" r_event_id ++
              field_errors "timestamp" r_timestamp ++ field_errors "source" r_source))
  end.

End Validation.

(** ** Dictionary objects on the heap

    A reference is the index of the object in [heap]; objects are never
    freed, so a reference handed out stays valid. *)

Definition dangling : exn := Exn SystemError "dangling reference".

(** [d[k]] *)
Definition dict_getitem (d : nat) (k : string) : Py Z := λ w,
  match heap w !! d with
  | None => (Raise dangling, w)
  | Some m =>
      match m !! k with
      | Some v => (Return v, w)
      | None => (Raise (Exn KeyError ("'" +:+ k +:+ "'")), w)
      end
  end.

(** [d[k] = v] *)
Definition dict_setitem (d : nat) (k : string) (v : Z) : Py unit := λ w,
  match heap w !! d with
  | None => (Raise dangling, w)
  | Some m => (Return tt, set_heap (λ h, <[d := <[k := v]> m]> h) w)
  end.

(** [d[k] += n] *)
Definition dict_iadd (d : nat) (k : string) (n : Z) : Py unit :=
  v ← dict_getitem d k ;
  dict_setitem d k (v + n).

(** a dictionary display: a new object *)
Definition dict_new (m : gmap string Z) : Py nat := λ w,
  (Return (length (heap w)), set_heap (λ h, h ++ [m]) w).

(** [d.copy()]: a new object with the same items *)
Definition dict_copy (d : nat) : Py nat := λ w,
  match heap w !! d with
  | None => (Raise dangling, w)
  | Some m => dict_new m w
  end.

(** ** asyncio.Queue *)

Record Queue : Type := mkQueue {
  maxsize : Z;
  items : list Event;
  unfinished_tasks : Z
}.

Definition Queue_new (maxsize_ : Z) : Queue := mkQueue maxsize_ [] 0.

Definition qsize (q : Queue) : Z := Z.of_nat (length (items q)).

(** [Queue.full]: a queue with [maxsize <= 0] is never full. *)
Definition full (q : Queue) : bool :=
  if maxsize q <=? 0 then false else maxsize q <=? qsize q.

(** What awaiting gives the task at this point: a result, or nothing yet
    (the task stays suspended). *)
Inductive awaited (A : Type) : Type :=
| Ready (a : A)
| Pending.
Arguments Ready {A} a.
Arguments Pending {A}.

(** [await queue.put(item)]: waits while the queue is full, then appends.
    It has no raising outcome: [QueueFull] is raised by [put_nowait] only. *)
Definition Queue_put (q : Queue) (item : Event) : awaited (result Queue) :=
  if full q then Pending
  else Ready (Return (mkQueue (maxsize q) (items q ++ [item]) (unfinished_tasks q + 1))).

(** [await queue.get()]: waits while the queue is empty. *)
Definition Queue_get (q : Queue) : awaited (Event * Queue) :=
  match items q with
  | [] => Pending
  | item :: rest => Ready (item, mkQueue (maxsize q) rest (unfinished_tasks q))
  end.

(** [queue.task_done()] *)
Definition task_done (q : Queue) : result Queue :=
  if unfinished_tasks q <=? 0
  then Raise (Exn ValueError "task_done() called too many times")
  else Return (mkQueue (maxsize q) (items q) (unfinished_tasks q - 1)).

(** ** src/processor.py *)

(** [queue], [running] and [tasks] of the object are kept by [System]. *)
Record EventProcessor : Type := {
  database : Database;
  stats : nat   (* reference to the dictionary of counters *)
}.

Definition initial_stats : gmap string Z :=
  <["received" := 0]> (<["unique_processed" := 0]> (<["duplicate_dropped" := 0]> ∅)).

(** [EventProcessor.__init__] *)
Definition EventProcessor_new (database_ : Database) : Py EventProcessor :=
  d ← dict_new initial_stats ;
  mret {| database := database_; stats := d |}.

(** [EventProcessor.get_stats] *)
Definition get_stats (self : EventProcessor) : Py nat :=
  dict_copy (stats self).

(** [EventProcessor._process_event], cut at its two suspension points.
    First stretch: up to [await self.database.is_processed(...)]. *)
Definition process_received (self : EventProcessor) : Py unit :=
  dict_iadd (stats self) "received" 1.

(** Second stretch: the existence check and the branch on its result.
    Returns [is_duplicate]. *)
Definition process_check (self : EventProcessor) (event : Event) (worker_id : Z)
    (io : sqlite_io) : Py bool :=
  is_duplicate ← is_processed (database self) (topic event) (event_id event) io ;
  if is_duplicate : bool
  then
    dict_iadd (stats self) "duplicate_dropped" 1 ;;
    logger WARNING ("[Worker " +:+ pretty worker_id +:+ "] DUPLICATE DROPPED: topic=" +:+
                    topic event +:+ ", event_id=" +:+ event_id event) ;;
    mret true
  else
    mret false.

(** Third stretch: the [try] block around [mark_processed], with its
    [except Exception]. *)
Definition process_mark (self : EventProcessor) (event : Event) (worker_id : Z)
    (io : sqlite_io) : Py unit :=
  try_except
    (logger INFO ("[Worker " +:+ pretty worker_id +:+ "] PROCESSING: topic=" +:+
                  topic event +:+ ", event_id=" +:+ event_id event +:+
                  ", source=" +:+ source event) ;;
     marked ← mark_processed (database self) (topic event) (event_id event) io ;
     if marked : bool
     then
       dict_iadd (stats self) "unique_processed" 1 ;;
       logger INFO ("[Worker " +:+ pretty worker_id +:+ "] PROCESSED: topic=" +:+
                    topic event +:+ ", event_id=" +:+ event_id event)
     else
       dict_iadd (stats self) "duplicate_dropped" 1 ;;
       logger WARNING ("[Worker " +:+ pretty worker_id +:+ "] RACE CONDITION DUPLICATE: topic=" +:+
                       topic event +:+ ", event_id=" +:+ event_id event))
    (λ e,
     logger ERROR ("[Worker " +:+ pretty worker_id +:+ "] ERROR processing event: topic=" +:+
                   topic event +:+ ", event_id=" +:+ event_id event +:+
                   ", error=" +:+ exn_msg e)).

(** [EventProcessor._process_event] run without interruption; [io_check]
    and [io_mark] are the engine's part in its two store calls. *)
Definition _process_event (self : EventProcessor) (event : Event) (worker_id : Z)
    (io_check io_mark : sqlite_io) : Py unit :=
  process_received self ;;
  is_duplicate ← process_check self event worker_id io_check ;
  if is_duplicate : bool then mret tt
  else process_mark self event worker_id io_mark.

(** ** The worker loop, one step at a time

    A worker task is suspended at one of three places: in
    [await self.queue.get()], in [await is_processed] or in
    [await mark_processed]; the event in hand is part of its state. *)

Inductive worker_state : Type :=
| Idle
| Checking (event : Event)
| Marking (event : Event).

(** [except Exception as e] of [_worker]: log and go round the loop again *)
Definition worker_caught (worker_id : Z) (e : exn) : Py unit :=
  logger ERROR ("Worker " +:+ pretty worker_id +:+ " error: " +:+ exn_msg e).

(** The end of one round: [self.queue.task_done()], inside the loop's [try]. *)
Definition worker_done (worker_id : Z) (q : Queue) (w : World) : Queue * World :=
  match task_done q with
  | Return q' => (q', w)
  | Raise e => (q, (worker_caught worker_id e w).2)
  end.

(** [EventProcessor._worker]: what the task does when it is scheduled,
    up to its next suspension.  An idle worker that finds the queue empty
    times out and waits again.  An exception that leaves the body of the
    loop is logged and the loop goes on, [task_done] skipped. *)
Definition _worker (self : EventProcessor) (worker_id : Z) (io : sqlite_io)
    (st : worker_state) (q : Queue) (w : World) : worker_state * Queue * World :=
  match st with
  | Idle =>
      match Queue_get q with
      | Pending => (Idle, q, w)
      | Ready (event, q') =>
          match process_received self w with
          | (Return _, w') => (Checking event, q', w')
          | (Raise e, w') => (Idle, q', (worker_caught worker_id e w').2)
          end
      end
  | Checking event =>
      match process_check self event worker_id io w with
      | (Return true, w') =>
          let '(q', w'') := worker_done worker_id q w' in (Idle, q', w'')
      | (Return false, w') => (Marking event, q, w')
      | (Raise e, w') => (Idle, q, (worker_caught worker_id e w').2)
      end
  | Marking event =>
      match process_mark self event worker_id io w with
      | (Return _, w') =>
          let '(q', w'') := worker_done worker_id q w' in (Idle, q', w'')
      | (Raise e, w') => (Idle, q, (worker_caught worker_id e w').2)
      end
  end.

(** ** src/main.py *)

Record Config : Type := {
  HOST : string;
  PORT : Z;
  DEDUP_DB_PATH : string;
  QUEUE_MAX_SIZE : Z;
  CONSUMER_WORKERS : Z
}.

(** the body of the 200 reply of POST /publish *)
Record Accepted : Type := mkAccepted {
  accepted_event_id : string;
  accepted_topic : string
}.

(** the body of the reply of POST /publish/batch *)
Record BatchReport : Type := mkBatchReport {
  batch_accepted : Z;
  batch_rejected : Z;
  batch_total : Z
}.

(** A request handler either answers (a body or a raised [HTTPException])
    or is left suspended, with the queue and the world as they are then. *)
Inductive handler (A : Type) : Type :=
| Responds (r : result A) (q : Queue) (w : World)
| Suspends (q : Queue) (w : World).
Arguments Responds {A} r q w.
Arguments Suspends {A} q w.

(** [publish_event] *)
Definition publish_event (event : Event) (q : Queue) (w : World) : handler Accepted :=
  match Queue_put q event with
  | Pending => Suspends q w
  | Ready (Return q') =>
      Responds (Return (mkAccepted (event_id event) (topic event))) q'
        (add_log (LogRecord INFO ("Event published: topic=" +:+ topic event +:+
                                  ", event_id=" +:+ event_id event)) w)
  | Ready (Raise e) =>
      match exn_cls e with
      | QueueFull =>
          Responds (Raise (Exn (HTTPException 503) "Queue full, please try again later")) q
            (add_log (LogRecord ERROR "Queue full, cannot accept more events") w)
      | _ =>
          Responds (Raise (Exn (HTTPException 500) (exn_msg e))) q
            (add_log (LogRecord ERROR ("Error publishing event: " +:+ exn_msg e)) w)
      end
  end.

(** The loop of [publish_batch] over the events that remain. *)
Fixpoint publish_batch_loop (events : list Event) (accepted rejected : Z)
    (q : Queue) (w : World) : handler (Z * Z) :=
  match events with
  | [] => Responds (Return (accepted, rejected)) q w
  | event :: rest =>
      match Queue_put q event with
      | Pending => Suspends q w
      | Ready (Return q') => publish_batch_loop rest (accepted + 1) rejected q' w
      | Ready (Raise e) =>
          match exn_cls e with
          | QueueFull =>
              publish_batch_loop rest accepted (rejected + 1) q
                (add_log (LogRecord WARNING ("Queue full, event rejected: " +:+ event_id event)) w)
          | _ => Responds (Raise e) q w
          end
      end
  end.

(** [publish_batch] *)
Definition publish_batch (events : list Event) (q : Queue) (w : World)
  : handler BatchReport :=
  match publish_batch_loop events 0 0 q w with
  | Suspends q' w' => Suspends q' w'
  | Responds (Raise e) q' w' => Responds (Raise e) q' w'
  | Responds (Return (accepted, rejected)) q' w' =>
      Responds (Return (mkBatchReport accepted rejected (Z.of_nat (length events)))) q'
        (add_log (LogRecord INFO ("Batch published: accepted=" +:+ pretty accepted +:+
                                  ", rejected=" +:+ pretty rejected)) w')
  end.

(** ** The running application

    The globals of [main.py] after start-up, the worker tasks, and the
    publish handlers that are suspended in [put] with their event. *)

Record System : Type := mkSystem {
  world : World;
  event_queue : Queue;
  processor : EventProcessor;
  workers : list worker_state;
  putters : list Event
}.

(** [for i in range(num_workers)]: each task, once it runs, writes its
    first record and waits for an event. *)
Fixpoint workers_started (n : nat) (first : Z) : Py unit :=
  match n with
  | O => mret tt
  | S n' =>
      logger INFO ("Worker " +:+ pretty first +:+ " started") ;;
      workers_started n' (first + 1)
  end.

(** The start-up half of [lifespan]: database, queue, processor, then
    [processor.start(num_workers)]; the application is up when every
    worker waits for its first event.  A start-up that raises leaves no
    application. *)
Definition lifespan (cfg : Config) (io : sqlite_io) (w : World) : result System :=
  match (logger INFO "Starting Pub-Sub Log Aggregator" ;;
         database_ ← Database_new (DEDUP_DB_PATH cfg) io ;
         processor_ ← EventProcessor_new database_ ;
         logger INFO ("Starting " +:+ pretty (CONSUMER_WORKERS cfg) +:+ " processor workers") ;;
         logger INFO ("Application started on " +:+ HOST cfg +:+ ":" +:+ pretty (PORT cfg)) ;;
         workers_started (Z.to_nat (CONSUMER_WORKERS cfg)) 0 ;;
         mret processor_) w with
  | (Return processor_, w') =>
      Return (mkSystem w' (Queue_new (QUEUE_MAX_SIZE cfg)) processor_
                (replicate (Z.to_nat (CONSUMER_WORKERS cfg)) Idle) [])
  | (Raise e, _) => Raise e
  end.

(** What the event loop can do next: start a publish handler for a
    request, resume a handler suspended in [put], or run a worker to its
    next suspension; [io] is the engine's part in the store call of that
    stretch, if it has one. *)
Inductive action : Type :=
| Publish (event : Event)
| ResumePut (n : nat)
| Work (worker : nat) (io : sqlite_io).

Definition exec (a : action) (s : System) : option System :=
  match a with
  | Publish event =>
      match publish_event event (event_queue s) (world s) with
      | Responds _ q w => Some (mkSystem w q (processor s) (workers s) (putters s))
      | Suspends q w => Some (mkSystem w q (processor s) (workers s) (putters s ++ [event]))
      end
  | ResumePut n =>
      event ← putters s !! n ;
      match publish_event event (event_queue s) (world s) with
      | Responds _ q w => Some (mkSystem w q (processor s) (workers s) (delete n (putters s)))
      | Suspends _ _ => Some s
      end
  | Work i io =>
      st ← workers s !! i ;
      let '(st', q, w) := _worker (processor s) (Z.of_nat i) io st (event_queue s) (world s) in
      Some (mkSystem w q (processor s) (<[i := st']> (workers s)) (putters s))
  end.

Fixpoint run (sched : list action) (s : System) : option System :=
  match sched with
  | [] => Some s
  | a :: rest => s' ← exec a s ; run rest s'
  end.

(** Nothing is queued, no handler waits to enqueue and no worker holds an
    event. *)
Definition quiescent (s : System) : Prop :=
  items (event_queue s) = [] ∧ putters s = [] ∧ Forall (λ st, st = Idle) (workers s).

(** ** Reading the counters *)

Definition counter (k : string) (self : EventProcessor) (w : World) : option Z :=
  m ← heap w !! stats self ; m !! k.

Definition received (s : System) : option Z := counter "received" (processor s) (world s).
Definition unique_processed (s : System) : option Z :=
  counter "unique_processed" (processor s) (world s).
Definition duplicate_dropped (s : System) : option Z :=
  counter "duplicate_dropped" (processor s) (world s).

(** the rows of the store of [self], if it has its table *)
Definition store (self : Database) (w : World) : option (list (string * string)) :=
  disk w !! db_path self.

(** no step of the schedule has the engine fail *)
Definition engine_completes (a : action) : bool :=
  match a with
  | Work _ (Faults _) => false
  | _ => true
  end.

Definition fault_free (sched : list action) : bool := forallb engine_completes sched.

(** the step is an existence check that the engine fails: [is_processed]
    raises in the hands of worker [i] *)
Definition check_fails (a : action) (s : System) : bool :=
  match a with
  | Work i (Faults _) =>
      match workers s !! i with
      | Some (Checking _) => true
      | _ => false
      end
  | _ => false
  end.

(** the number of existence checks that fail in the run of [sched] from [s] *)
Fixpoint failed_checks (sched : list action) (s : System) : Z :=
  match sched with
  | [] => 0
  | a :: rest =>
      match exec a s with
      | Some s' => (if check_fails a s then 1 else 0) + failed_checks rest s'
      | None => 0
      end
  end.

(** The world after [self.stats[k] += 1]. *)
Definition bump (k : string) (self : EventProcessor) (w : World) : World :=
  match heap w !! stats self with
  | Some m => set_heap (λ h, <[stats self := <[k := default 0 (m !! k) + 1]> m]> h) w
  | None => w
  end.

(** ** The protocol seen from outside

    What the statements below speak about: the three counters, the rows of the store,
    the queue, the workers and the suspended handlers.  [vstep] lists the
    moves of the running application on that view; that [exec] makes only
    these moves is proved below. *)

Definition key_of (event : Event) : string * string := (topic event, event_id event).

Record view : Type := mkView {
  v_received : Z;
  v_unique : Z;
  v_duplicate : Z;
  v_rows : list (string * string);
  v_maxsize : Z;
  v_queue : list Event;
  v_workers : list worker_state;
  v_putters : list Event
}.

Definition view_of (s : System) : option view :=
  r ← received s ;
  u ← unique_processed s ;
  d ← duplicate_dropped s ;
  rows ← store (database (processor s)) (world s) ;
  Some (mkView r u d rows (maxsize (event_queue s)) (items (event_queue s))
          (workers s) (putters s)).

(** [Queue.full] on the view *)
Definition no_room (m : Z) (q : list Event) : bool :=
  if m <=? 0 then false else m <=? Z.of_nat (length q).

Inductive vstep : action → view → view → Prop :=
| vs_publish event r u d rows m q ws ps :
    no_room m q = false →
    vstep (Publish event) (mkView r u d rows m q ws ps)
                          (mkView r u d rows m (q ++ [event]) ws ps)
| vs_publish_wait event r u d rows m q ws ps :
    no_room m q = true →
    vstep (Publish event) (mkView r u d rows m q ws ps)
                          (mkView r u d rows m q ws (ps ++ [event]))
| vs_resume n event r u d rows m q ws ps :
    ps !! n = Some event →
    no_room m q = false →
    vstep (ResumePut n) (mkView r u d rows m q ws ps)
                        (mkView r u d rows m (q ++ [event]) ws (delete n ps))
| vs_resume_wait n event r u d rows m q ws ps :
    ps !! n = Some event →
    no_room m q = true →
    vstep (ResumePut n) (mkView r u d rows m q ws ps) (mkView r u d rows m q ws ps)
| vs_timeout i io r u d rows m ws ps :
    ws !! i = Some Idle →
    vstep (Work i io) (mkView r u d rows m [] ws ps) (mkView r u d rows m [] ws ps)
| vs_dequeue i io event r u d rows m q ws ps :
    ws !! i = Some Idle →
    vstep (Work i io) (mkView r u d rows m (event :: q) ws ps)
                      (mkView (r + 1) u d rows m q (<[i := Checking event]> ws) ps)
| vs_check_duplicate i event r u d rows m q ws ps :
    ws !! i = Some (Checking event) →
    key_of event ∈ rows →
    vstep (Work i Completes) (mkView r u d rows m q ws ps)
                             (mkView r u (d + 1) rows m q (<[i := Idle]> ws) ps)
| vs_check_new i event r u d rows m q ws ps :
    ws !! i = Some (Checking event) →
    key_of event ∉ rows →
    vstep (Work i Completes) (mkView r u d rows m q ws ps)
                             (mkView r u d rows m q (<[i := Marking event]> ws) ps)
| vs_check_fault i e event r u d rows m q ws ps :
    ws !! i = Some (Checking event) →
    vstep (Work i (Faults e)) (mkView r u d rows m q ws ps)
                              (mkView r u d rows m q (<[i := Idle]> ws) ps)
| vs_mark_new i event r u d rows m q ws ps :
    ws !! i = Some (Marking event) →
    key_of event ∉ rows →
    vstep (Work i Completes) (mkView r u d rows m q ws ps)
                             (mkView r (u + 1) d (rows ++ [key_of event]) m q
                                (<[i := Idle]> ws) ps)
| vs_mark_lost i event r u d rows m q ws ps :
    ws !! i = Some (Marking event) →
    key_of event ∈ rows →
    vstep (Work i Completes) (mkView r u d rows m q ws ps)
                             (mkView r u (d + 1) rows m q (<[i := Idle]> ws) ps)
| vs_mark_fault i e event r u d rows m q ws ps :
    ws !! i = Some (Marking event) →
    vstep (Work i (Faults e)) (mkView r u d rows m q ws ps)
                              (mkView r u (d + 1) rows m q (<[i := Idle]> ws) ps).

Inductive vrun : list action → view → view → Prop :=
| vrun_nil v : vrun [] v v
| vrun_cons a sched v1 v2 v3 :
    vstep a v1 v2 → vrun sched v2 v3 → vrun (a :: sched) v1 v3.

(** the events of the publish requests of a schedule *)
Definition published (sched : list action) : list Event :=
  omap (λ a, match a with Publish event => Some event | _ => None end) sched.

(** the number of workers that hold an event *)
Definition holds_event (st : worker_state) : Z :=
  match st with
  | Idle => 0
  | Checking _ | Marking _ => 1
  end.

Fixpoint busy (ws : list worker_state) : Z :=
  match ws with
  | [] => 0
  | st :: rest => holds_event st + busy rest
  end.

(** the event a worker holds *)
Definition held (st : worker_state) : option Event :=
  match st with
  | Idle => None
  | Checking event | Marking event => Some event
  end.

(** Every event taken from the queue has been counted as new or as a
    duplicate, or is still in the hands of a worker. *)
Definition balanced (v : view) : Prop :=
  v_received v = v_unique v + v_duplicate v + busy (v_workers v).

Definition counters_nonneg (v : view) : Prop :=
  0 ≤ v_received v ∧ 0 ≤ v_unique v ∧ 0 ≤ v_duplicate v.

(** The shape of a run in which the [p] events published so far all carry
    [key], on a store that did not have [key] at the start. *)
Definition single_key (key : string * string) (p : Z) (v : view) : Prop :=
  v_received v + Z.of_nat (length (v_queue v)) + Z.of_nat (length (v_putters v)) = p ∧
  balanced v ∧
  v_unique v = (if decide (key ∈ v_rows v) then 1 else 0) ∧
  0 ≤ v_duplicate v ∧
  (0 < v_duplicate v → key ∈ v_rows v) ∧
  Forall (λ event, key_of event = key) (v_queue v) ∧
  Forall (λ event, key_of event = key) (v_putters v) ∧
  Forall (λ st, ∀ event, held st = Some event → key_of event = key) (v_workers v).

(** the store calls a worker still has to make for the event it holds *)
Definition calls_left (st : worker_state) : nat :=
  match st with
  | Idle => 0
  | Checking _ => 2
  | Marking _ => 1
  end.

Fixpoint calls_pending (ws : list worker_state) : nat :=
  match ws with
  | [] => 0
  | st :: rest => calls_left st + calls_pending rest
  end.

(** a bound on the steps that remain until nothing is left to do *)
Definition work_left (v : view) : nat :=
  (4 * length (v_putters v) + 3 * length (v_queue v) +
   calls_pending (v_workers v))%nat.

(** A restart of the process: the files stay, the memory and the console
    are new. *)
Definition restart (w : World) : World :=
  {| disk := disk w; heap := []; logs := [] |}.

(** empty, or nothing but whitespace: what [not v or not v.strip()] tests *)
Definition blank (s : string) : bool := forallb py_isspace (code_points s).

(** ** src/database.py: the reporting queries and [clear] *)

(** SELECT DISTINCT topic FROM processed_events; fetchall *)
Definition sqlite_select_distinct_topic (path : string) (io : sqlite_io)
  : Py (list string) := λ w,
  match io with
  | Faults e => (Raise e, w)
  | Completes =>
      match disk w !! path with
      | None => (Raise no_such_table, w)
      | Some rows => (Return (remove_dups (rows.*1)), w)
      end
  end.

(** [Database.get_all_topics]: the set comprehension over the rows *)
Definition get_all_topics (self : Database) (io : sqlite_io) : Py (gset string) :=
  rows ← sqlite_select_distinct_topic (db_path self) io ;
  mret (list_to_set rows).

(** SELECT COUNT( * ) FROM processed_events; fetchone: always one row *)
Definition sqlite_select_count (path : string) (io : sqlite_io) : Py (option Z) := λ w,
  match io with
  | Faults e => (Raise e, w)
  | Completes =>
      match disk w !! path with
      | None => (Raise no_such_table, w)
      | Some rows => (Return (Some (Z.of_nat (length rows))), w)
      end
  end.

(** [Database.get_count]: [result[0] if result else 0] *)
Definition get_count (self : Database) (io : sqlite_io) : Py Z :=
  result ← sqlite_select_count (db_path self) io ;
  mret (match result with Some n => n | None => 0 end).

(** DELETE FROM processed_events; commit *)
Definition sqlite_delete_all (path : string) (io : sqlite_io) : Py unit := λ w,
  match io with
  | Faults e => (Raise e, w)
  | Completes =>
      match disk w !! path with
      | None => (Raise no_such_table, w)
      | Some _ => (Return tt, set_disk (insert path []) w)
      end
  end.

(** [Database.clear] *)
Definition clear (self : Database) (io : sqlite_io) : Py unit :=
  sqlite_delete_all (db_path self) io ;;
  logger INFO "Database cleared".

(** One call on the store, by whichever connection or process that shares
    the file; the engine takes the calls one at a time. *)
Inductive store_call : Type :=
| CallMark (topic_ event_id_ : string) (io : sqlite_io)
| CallCheck (topic_ event_id_ : string) (io : sqlite_io)
| CallTopics (io : sqlite_io)
| CallCount (io : sqlite_io)
| CallClear (io : sqlite_io)
| CallReopen (io : sqlite_io).

(** the world after the call, its result dropped *)
Definition store_call_run (self : Database) (c : store_call) (w : World) : World :=
  match c with
  | CallMark t e io => (mark_processed self t e io w).2
  | CallCheck t e io => (is_processed self t e io w).2
  | CallTopics io => (get_all_topics self io w).2
  | CallCount io => (get_count self io w).2
  | CallClear io => (clear self io w).2
  | CallReopen io => (Database_new (db_path self) io w).2
  end.

Definition store_calls (self : Database) (cs : list store_call) (w : World) : World :=
  foldl (λ w c, store_call_run self c w) w cs.

(** [await asyncio.gather(db.mark_processed(...), db.mark_processed(...), ...)]
    as the tests run it: the calls reach the engine one at a time, here in
    the order of the list, and the engine completes each. *)
Fixpoint gather_mark_processed (self : Database) (keys : list (string * string))
  : Py (list bool) :=
  match keys with
  | [] => mret []
  | (t, e) :: rest =>
      b ← mark_processed self t e Completes ;
      bs ← gather_mark_processed self rest ;
      mret (b :: bs)
  end.

(** [sum(1 for r in results if r)] *)
Definition success_count (results : list bool) : Z :=
  Z.of_nat (length (filter (λ b, b = true) results)).

(** ** src/main.py: GET /stats

    The reply carries an uptime computed from the clock as a float; the
    clock is outside this development, so the rounded value is handed in. *)

(** [sorted(...)] on strings: ascending, characters compared by code point *)
Definition sorted (l : list string) : list string := merge_sort String.le l.

(** models.py, [StatsResponse] *)
Record StatsResponse (float : Type) : Type := mkStatsResponse {
  stats_received : Z;
  stats_unique_processed : Z;
  stats_duplicate_dropped : Z;
  stats_topics : list string;
  stats_uptime : float
}.
Arguments mkStatsResponse {float} _ _ _ _ _.
Arguments stats_received {float} _.
Arguments stats_unique_processed {float} _.
Arguments stats_duplicate_dropped {float} _.
Arguments stats_topics {float} _.
Arguments stats_uptime {float} _.

(** [get_stats] of main.py, the handler of GET /stats *)
Definition get_stats_endpoint {float : Type} (processor_ : EventProcessor)
    (io : sqlite_io) (uptime : float) : Py (StatsResponse float) :=
  try_except
    (processor_stats ← get_stats processor_ ;
     topics ← get_all_topics (database processor_) io ;
     received_ ← dict_getitem processor_stats "received" ;
     unique_ ← dict_getitem processor_stats "unique_processed" ;
     duplicate_ ← dict_getitem processor_stats "duplicate_dropped" ;
     mret (mkStatsResponse received_ unique_ duplicate_ (sorted (elements topics)) uptime))
    (λ e,
     logger ERROR ("Error fetching stats: " +:+ exn_msg e) ;;
     raise (Exn (HTTPException 500) (exn_msg e))).

(** ** More invariants of the running application *)

(** A bounded queue holds at most [maxsize] events; with an unbounded one
    no handler is ever left waiting. *)
Definition within_capacity (v : view) : Prop :=
  (0 < v_maxsize v → Z.of_nat (length (v_queue v)) ≤ v_maxsize v) ∧
  (v_maxsize v ≤ 0 → v_putters v = []).

(** the event is somewhere between admission and the end of its round *)
Definition in_flight (event : Event) (v : view) : Prop :=
  event ∈ v_queue v ∨ event ∈ v_putters v ∨
  ∃ st : worker_state, st ∈ v_workers v ∧ held st = Some event.

(** Of the events [pub] published so far, each is still in flight or has
    its pair in the store; nothing else is in flight, and the store has
    only the rows it started with and pairs of published events. *)
Definition accounted (rows0 : list (string * string)) (pub : list Event) (v : view) : Prop :=
  (∀ event, event ∈ pub → in_flight event v ∨ key_of event ∈ v_rows v) ∧
  (∀ event, in_flight event v → event ∈ pub) ∧
  (∀ key, key ∈ v_rows v → key ∈ rows0 ∨ ∃ event, event ∈ pub ∧ key_of event = key).

(** the events the queue has not heard [task_done] for, if every round
    ends with it: those queued and those in the hands of a worker *)
Definition owed (s : System) : Z :=
  qsize (event_queue s) + busy (workers s).

(** ** A small instance, to run the statements on *)

Definition demo_cfg : Config :=
  {| HOST := "0.0.0.0"; PORT := 8080;
     DEDUP_DB_PATH := "dedup.db"; QUEUE_MAX_SIZE := 2; CONSUMER_WORKERS := 2 |}.

Definition demo_world : World := mkWorld ∅ [] [].

Definition demo_event : Event :=
  mkEvent "user.login" "evt_1" "2024-05-01T10:20:30Z" "auth-service" ∅.

Definition demo_db : Database := {| db_path := "dedup.db" |}.

Definition demo_start : System :=
  match lifespan demo_cfg Completes demo_world with
  | Return s => s
  | Raise _ => mkSystem demo_world (Queue_new 0) {| database := demo_db; stats := 0 |} [] []
  end.

(** Three requests with the same pair against a queue of two places; both
    workers pass the existence check before either marks. *)
Definition demo_sched : list action :=
  [ Publish demo_event; Publish demo_event; Publish demo_event;
    Work 0 Completes; Work 1 Completes;
    Work 0 Completes; Work 1 Completes;
    Work 0 Completes; Work 1 Completes;
    ResumePut 0;
    Work 1 Completes; Work 1 Completes ].

Definition demo_end : System := default demo_start (run demo_sched demo_start).

Definition demo_marking : System :=
  default demo_start
    (run [Publish demo_event; Work 0 Completes; Work 0 Completes] demo_start).

Definition demo_full : System :=
  default demo_start (run [Publish demo_event; Publish demo_event] demo_start).

Definition locked : exn := Exn OperationalError "database is locked".



(** Two requests; the existence check of the first event fails, the
    second event is in the hands of worker 1. *)
Definition demo_checking_sched : list action :=
  [ Publish demo_event; Publish demo_event; Work 0 Completes; Work 0 (Faults locked);
    Work 1 Completes ].

Definition demo_checking : System :=
  default demo_start (run demo_checking_sched demo_start).

Definition demo_store : World := mkWorld {["dedup.db" := []]} [] [].

(** calls of every kind, some of them failed by the engine *)
Definition demo_calls : list store_call :=
  [ CallMark "user.login" "evt_1" Completes; CallMark "user.login" "evt_1" Completes;
    CallCheck "user.login" "evt_1" Completes; CallMark "user.logout" "evt_1" (Faults locked);
    CallTopics Completes; CallCount Completes; CallReopen Completes;
    CallClear Completes; CallMark "user.login" "evt_1" Completes;
    CallMark "user.logout" "evt_2" Completes; CallClear (Faults locked) ].

Definition demo_marked : World :=
  (mark_processed demo_db "user.login" "evt_1" Completes demo_store).2.

(** * Properties *)

(** ** The store *)

Section StoreFacts.

Context (self : Database) (topic_ event_id_ : string).

Lemma is_processed_completes (w : World) (rows : list (string * string)) :
  store self w = Some rows →
  is_processed self topic_ event_id_ Completes w = (Return (bool_decide ((topic_, event_id_) ∈ rows)), w).
Proof.
  unfold store, is_processed, sqlite_select_1, mbind, Py_bind, mret, Py_ret.
  intros ->. by case_bool_decide.
Qed.

Lemma is_processed_faults (w : World) (e : exn) :
  is_processed self topic_ event_id_ (Faults e) w = (Raise e, w).
Proof. reflexivity. Qed.

Lemma is_processed_no_table (w : World) :
  store self w = None →
  is_processed self topic_ event_id_ Completes w = (Raise no_such_table, w).
Proof.
  unfold store, is_processed, sqlite_select_1, mbind, Py_bind. by intros ->.
Qed.

Lemma mark_processed_new (w : World) (rows : list (string * string)) :
  store self w = Some rows → (topic_, event_id_) ∉ rows →
  mark_processed self topic_ event_id_ Completes w =
    (Return true,
     add_log (LogRecord DEBUG ("Marked as processed: topic=" +:+ topic_ +:+
                               ", event_id=" +:+ event_id_))
       (set_disk (insert (db_path self) (rows ++ [(topic_, event_id_)])) w)).
Proof.
  unfold store, mark_processed, try_except, sqlite_insert_or_ignore, mbind, Py_bind.
  intros -> Hnew. by rewrite bool_decide_eq_false_2.
Qed.

Lemma mark_processed_known (w : World) (rows : list (string * string)) :
  store self w = Some rows → (topic_, event_id_) ∈ rows →
  mark_processed self topic_ event_id_ Completes w =
    (Return false,
     add_log (LogRecord WARNING ("Duplicate detected: topic=" +:+ topic_ +:+
                                 ", event_id=" +:+ event_id_)) w).
Proof.
  unfold store, mark_processed, try_except, sqlite_insert_or_ignore, mbind, Py_bind.
  intros -> Hold. by rewrite bool_decide_eq_true_2.
Qed.

Lemma mark_processed_faults (w : World) (e : exn) :
  mark_processed self topic_ event_id_ (Faults e) w =
    (Return false,
     add_log (LogRecord ERROR ("Error marking event as processed: " +:+ exn_msg e)) w).
Proof. reflexivity. Qed.

Lemma mark_processed_no_table (w : World) :
  store self w = None →
  mark_processed self topic_ event_id_ Completes w =
    (Return false,
     add_log (LogRecord ERROR ("Error marking event as processed: " +:+
                               exn_msg no_such_table)) w).
Proof.
  unfold store, mark_processed, try_except, sqlite_insert_or_ignore, mbind, Py_bind.
  by intros ->.
Qed.

End StoreFacts.

Lemma Database_new_completes (path : string) (w : World) :
  Database_new path Completes w =
    (Return {| db_path := path |},
     add_log (LogRecord INFO ("Database initialized at " +:+ path))
       (match disk w !! path with
        | Some _ => w
        | None => set_disk (insert path []) w
        end)).
Proof.
  unfold Database_new, _init_db, sqlite_create_if_not_exists, mbind, Py_bind; simpl.
  by destruct (disk w !! path).
Qed.

(** C2. On a store that has its table and an engine that completes the
    call, [mark_processed] inserts the pair if it is absent: it returns
    [True] exactly when the pair was not among the rows, the pair is among
    the rows afterwards, and when it returns [False] the files are left as
    they were. *)
Theorem mark_processed_is_insert_if_absent
    (self : Database) (topic_ event_id_ : string) (w : World)
    (rows : list (string * string)) :
  store self w = Some rows →
  ∃ (b : bool) (w' : World) (rows' : list (string * string)),
    mark_processed self topic_ event_id_ Completes w = (Return b, w') ∧
    (b = true ↔ (topic_, event_id_) ∉ rows) ∧
    store self w' = Some rows' ∧
    (topic_, event_id_) ∈ rows' ∧
    (b = true → rows' = rows ++ [(topic_, event_id_)]) ∧
    (b = false → disk w' = disk w) ∧
    heap w' = heap w.
Proof.
  intros Hstore.
  destruct (decide ((topic_, event_id_) ∈ rows)) as [Hin | Hnotin].
  - eexists false, _, rows. rewrite (mark_processed_known _ _ _ _ rows) by done.
    repeat split; try done.
  - eexists true, _, (rows ++ [(topic_, event_id_)]).
    rewrite (mark_processed_new _ _ _ _ rows) by done.
    repeat split; try done.
    + unfold store; simpl. by rewrite lookup_insert_eq.
    + rewrite elem_of_app, list_elem_of_singleton. by right.
Qed.

(** C5. When the engine fails the call, [mark_processed] does not let the
    failure reach its caller: the [except Exception] clause logs it and
    the call returns [False], the value that otherwise means "already
    there".  The files are left as they were. *)
Theorem mark_processed_swallows_fault
    (self : Database) (topic_ event_id_ : string) (e : exn) (w : World) :
  ∃ w' : World,
    mark_processed self topic_ event_id_ (Faults e) w = (Return false, w') ∧
    disk w' = disk w ∧
    heap w' = heap w ∧
    logs w' = logs w ++
      [LogRecord ERROR ("Error marking event as processed: " +:+ exn_msg e)].
Proof. eexists. by rewrite mark_processed_faults. Qed.

(** C7. Once [mark_processed] has returned [True] for a pair, a restart
    of the process followed by a new [Database] on the same path finds the
    pair: [is_processed] returns [True] and [mark_processed] returns
    [False]. *)
Theorem mark_survives_reopen
    (self : Database) (topic_ event_id_ : string) (w w1 : World) :
  mark_processed self topic_ event_id_ Completes w = (Return true, w1) →
  ∃ (reopened : Database) (w2 : World),
    Database_new (db_path self) Completes (restart w1) = (Return reopened, w2) ∧
    (is_processed reopened topic_ event_id_ Completes w2).1 = Return true ∧
    (mark_processed reopened topic_ event_id_ Completes w2).1 = Return false.
Proof.
  intros Hmark.
  destruct (store self w) as [rows|] eqn:Hstore.
  2: { rewrite mark_processed_no_table in Hmark by done. discriminate. }
  destruct (decide ((topic_, event_id_) ∈ rows)) as [Hin | Hnotin].
  { rewrite (mark_processed_known _ _ _ _ rows) in Hmark by done. discriminate. }
  rewrite (mark_processed_new _ _ _ _ rows) in Hmark by done.
  injection Hmark as <-.
  eexists _, _. rewrite Database_new_completes. split; [done|].
  simpl. rewrite lookup_insert_eq.
  set (w2 := add_log _ _).
  assert (Hw2 : store {| db_path := db_path self |} w2 =
                Some (rows ++ [(topic_, event_id_)])).
  { unfold store; simpl. by rewrite lookup_insert_eq. }
  assert (Hin : (topic_, event_id_) ∈ rows ++ [(topic_, event_id_)]).
  { rewrite elem_of_app, list_elem_of_singleton. by right. }
  rewrite (is_processed_completes _ _ _ _ _ Hw2).
  rewrite (mark_processed_known _ _ _ _ _ Hw2 Hin).
  split; [|done]. simpl. by rewrite bool_decide_eq_true_2.
Qed.

(** C8. Deduplication is per topic: with two different topics and one
    [event_id], neither pair in the store, marking the one and then the
    other returns [True] both times. *)
Theorem dedup_scoped_per_topic
    (self : Database) (topic1 topic2 event_id_ : string) (w : World)
    (rows : list (string * string)) :
  topic1 ≠ topic2 →
  store self w = Some rows →
  (topic1, event_id_) ∉ rows →
  (topic2, event_id_) ∉ rows →
  ∃ w1 w2 : World,
    mark_processed self topic1 event_id_ Completes w = (Return true, w1) ∧
    mark_processed self topic2 event_id_ Completes w1 = (Return true, w2) ∧
    store self w2 = Some (rows ++ [(topic1, event_id_); (topic2, event_id_)]).
Proof.
  intros Hne Hstore H1 H2.
  eexists _, _.
  rewrite (mark_processed_new _ _ _ _ rows) by done.
  split; [done|].
  rewrite (mark_processed_new _ _ _ _ (rows ++ [(topic1, event_id_)])).
  - split; [done|]. unfold store; simpl.
    by rewrite lookup_insert_eq, <- app_assoc.
  - unfold store; simpl. by rewrite lookup_insert_eq.
  - rewrite elem_of_app, list_elem_of_singleton. intros [? | [= ?]]; done.
Qed.

(** ** Counters and worlds *)

Section WorldFacts.

Context (self : EventProcessor).

Lemma counter_add_log (k : string) (r : log_record) (w : World) :
  counter k self (add_log r w) = counter k self w.
Proof. reflexivity. Qed.

Lemma counter_set_disk (k : string) f (w : World) :
  counter k self (set_disk f w) = counter k self w.
Proof. reflexivity. Qed.

Lemma store_add_log (db : Database) (r : log_record) (w : World) :
  store db (add_log r w) = store db w.
Proof. reflexivity. Qed.

Lemma store_bump (db : Database) (k : string) (w : World) :
  store db (bump k self w) = store db w.
Proof. unfold bump. by destruct (heap w !! stats self). Qed.

Lemma counter_bump (k k' : string) (w : World) (v : Z) :
  counter k self w = Some v →
  counter k' self (bump k self w) =
    if decide (k = k') then Some (v + 1) else counter k' self w.
Proof.
  unfold counter, bump.
  destruct (heap w !! stats self) as [m|] eqn:Hm; simpl; [|done].
  intros Hk. rewrite Hk; simpl.
  rewrite list_lookup_insert_eq by eauto using lookup_lt_Some. simpl.
  case_decide as Hkk.
  - subst k'. by rewrite lookup_insert_eq.
  - by rewrite lookup_insert_ne.
Qed.

Lemma dict_iadd_bump (k : string) (w : World) (v : Z) :
  counter k self w = Some v →
  dict_iadd (stats self) k 1 w = (Return tt, bump k self w).
Proof.
  unfold counter, dict_iadd, dict_getitem, dict_setitem, bump, mbind, Py_bind.
  destruct (heap w !! stats self) as [m|] eqn:Hm; simpl; [|done].
  intros Hk. rewrite Hk, Hm. done.
Qed.

Lemma heap_bump_other (k : string) (w : World) (l : nat) :
  l ≠ stats self → heap (bump k self w) !! l = heap w !! l.
Proof.
  intros Hl. unfold bump. destruct (heap w !! stats self); [|done].
  simpl. by rewrite list_lookup_insert_ne.
Qed.

Lemma heap_bump_length (k : string) (w : World) :
  length (heap (bump k self w)) = length (heap w).
Proof.
  unfold bump. destruct (heap w !! stats self); [|done].
  simpl. by rewrite length_insert.
Qed.

Lemma disk_bump (k : string) (w : World) : disk (bump k self w) = disk w.
Proof. unfold bump. by destruct (heap w !! stats self). Qed.

End WorldFacts.

(** ** The three stretches of [_process_event] *)

Section Stretches.

Context (self : EventProcessor) (event : Event) (worker_id : Z).

Lemma process_received_runs (w : World) (r : Z) :
  counter "received" self w = Some r →
  process_received self w = (Return tt, bump "received" self w).
Proof. apply dict_iadd_bump. Qed.

Lemma process_check_fault (w : World) (e : exn) :
  process_check self event worker_id (Faults e) w = (Raise e, w).
Proof. reflexivity. Qed.

Lemma process_check_new (w : World) (rows : list (string * string)) :
  store (database self) w = Some rows →
  key_of event ∉ rows →
  process_check self event worker_id Completes w = (Return false, w).
Proof.
  intros Hs Hk. unfold process_check, mbind, Py_bind.
  rewrite (is_processed_completes _ _ _ _ rows Hs).
  by rewrite bool_decide_eq_false_2.
Qed.

Lemma process_check_duplicate (w : World) (rows : list (string * string)) (d : Z) :
  store (database self) w = Some rows →
  key_of event ∈ rows →
  counter "duplicate_dropped" self w = Some d →
  ∃ r : log_record,
    process_check self event worker_id Completes w =
      (Return true, add_log r (bump "duplicate_dropped" self w)).
Proof.
  intros Hs Hk Hd. eexists. unfold process_check, mbind, Py_bind.
  rewrite (is_processed_completes _ _ _ _ rows Hs).
  rewrite bool_decide_eq_true_2 by done.
  by rewrite (dict_iadd_bump _ _ _ d Hd).
Qed.

Lemma process_mark_new (w : World) (rows : list (string * string)) (u : Z) :
  store (database self) w = Some rows →
  key_of event ∉ rows →
  counter "unique_processed" self w = Some u →
  ∃ r1 r2 r3 : log_record,
    process_mark self event worker_id Completes w =
      (Return tt,
       add_log r3 (bump "unique_processed" self
         (add_log r2 (set_disk (insert (db_path (database self)) (rows ++ [key_of event]))
            (add_log r1 w))))).
Proof.
  intros Hs Hk Hu. eexists _, _, _.
  unfold process_mark, try_except, mbind, Py_bind; simpl.
  rewrite (mark_processed_new _ _ _ _ rows) by done. simpl.
  by rewrite (dict_iadd_bump _ _ _ u).
Qed.

Lemma process_mark_lost (w : World) (rows : list (string * string)) (d : Z) :
  store (database self) w = Some rows →
  key_of event ∈ rows →
  counter "duplicate_dropped" self w = Some d →
  ∃ r1 r2 r3 : log_record,
    process_mark self event worker_id Completes w =
      (Return tt,
       add_log r3 (bump "duplicate_dropped" self (add_log r2 (add_log r1 w)))).
Proof.
  intros Hs Hk Hd. eexists _, _, _.
  unfold process_mark, try_except, mbind, Py_bind; simpl.
  rewrite (mark_processed_known _ _ _ _ rows) by done. simpl.
  by rewrite (dict_iadd_bump _ _ _ d).
Qed.

Lemma process_mark_fault (w : World) (e : exn) (d : Z) :
  counter "duplicate_dropped" self w = Some d →
  process_mark self event worker_id (Faults e) w =
    (Return tt,
     add_log (LogRecord WARNING
                ("[Worker " +:+ pretty worker_id +:+ "] RACE CONDITION DUPLICATE: topic=" +:+
                 topic event +:+ ", event_id=" +:+ event_id event))
       (bump "duplicate_dropped" self
          (add_log (LogRecord ERROR ("Error marking event as processed: " +:+ exn_msg e))
             (add_log (LogRecord INFO
                         ("[Worker " +:+ pretty worker_id +:+ "] PROCESSING: topic=" +:+
                          topic event +:+ ", event_id=" +:+ event_id event +:+
                          ", source=" +:+ source event)) w)))).
Proof.
  intros Hd.
  unfold process_mark, try_except, mbind, Py_bind; simpl.
  by rewrite (dict_iadd_bump _ _ _ d).
Qed.

End Stretches.

(** ** The running application makes only the moves of [vstep] *)

Lemma worker_done_keeps (worker_id : Z) (q : Queue) (w : World) :
  ∃ (q' : Queue) (w' : World),
    worker_done worker_id q w = (q', w') ∧
    maxsize q' = maxsize q ∧ items q' = items q ∧
    heap w' = heap w ∧ disk w' = disk w.
Proof.
  unfold worker_done. destruct (task_done q) as [q'|e] eqn:Hq.
  - exists q', w. unfold task_done in Hq.
    destruct (unfinished_tasks q <=? 0); [done|]. by injection Hq as <-.
  - by eexists _, _.
Qed.

Lemma counter_same_heap (k : string) (self : EventProcessor) (w w' : World) :
  heap w' = heap w → counter k self w' = counter k self w.
Proof. unfold counter. by intros ->. Qed.

Lemma store_same_disk (db : Database) (w w' : World) :
  disk w' = disk w → store db w' = store db w.
Proof. unfold store. by intros ->. Qed.

Lemma full_no_room (q : Queue) : full q = no_room (maxsize q) (items q).
Proof. reflexivity. Qed.

Lemma view_of_Some (s : System) (v : view) :
  view_of s = Some v ↔
  received s = Some (v_received v) ∧
  unique_processed s = Some (v_unique v) ∧
  duplicate_dropped s = Some (v_duplicate v) ∧
  store (database (processor s)) (world s) = Some (v_rows v) ∧
  maxsize (event_queue s) = v_maxsize v ∧
  items (event_queue s) = v_queue v ∧
  workers s = v_workers v ∧
  putters s = v_putters v.
Proof.
  unfold view_of. split.
  - destruct (received s), (unique_processed s), (duplicate_dropped s),
      (store _ _); simpl; try done.
    intros [= <-]. done.
  - intros (-> & -> & -> & -> & ? & ? & ? & ?). simpl. destruct v; simpl in *. congruence.
Qed.

Lemma exec_refines (a : action) (s s' : System) (v : view) :
  view_of s = Some v →
  exec a s = Some s' →
  processor s' = processor s ∧
  (∀ l : nat, l ≠ stats (processor s) → heap (world s') !! l = heap (world s) !! l) ∧
  ∃ v' : view, view_of s' = Some v' ∧ vstep a v v'.
Proof.
  intros Hv Hexec. apply view_of_Some in Hv.
  destruct v as [r u d rows m q ws ps]; simpl in Hv.
  destruct Hv as (Hr & Hu & Hd & Hrows & Hm & Hq & Hws & Hps).
  destruct s as [w qu self wks pts]; simpl in *.
  unfold received, unique_processed, duplicate_dropped in *; simpl in *.
  destruct qu as [m' q' uf]; simpl in *. subst wks pts m' q'.
  destruct a as [event | n | i io]; simpl in Hexec.
  - unfold publish_event, Queue_put in Hexec. rewrite full_no_room in Hexec; simpl in Hexec.
    destruct (no_room m q) eqn:Hroom; injection Hexec as <-; (split; [done|]); (split; [done|]).
    + eexists. split; [|by apply vs_publish_wait].
      apply view_of_Some; simpl. done.
    + eexists. split; [|by apply vs_publish].
      apply view_of_Some; simpl. done.
  - destruct (ps !! n) as [event|] eqn:Hn; simpl in Hexec; [|done].
    unfold publish_event, Queue_put in Hexec. rewrite full_no_room in Hexec; simpl in Hexec.
    destruct (no_room m q) eqn:Hroom; injection Hexec as <-; (split; [done|]); (split; [done|]).
    + eexists. split; [|by eapply vs_resume_wait].
      apply view_of_Some; simpl. done.
    + eexists. split; [|by eapply vs_resume].
      apply view_of_Some; simpl. done.
  - destruct (ws !! i) as [st|] eqn:Hi; simpl in Hexec; [|done].
    destruct st as [|event|event]; simpl in Hexec.
    + unfold Queue_get in Hexec; simpl in Hexec.
      destruct q as [|event q'].
      * injection Hexec as <-. split; [done|]. split; [done|].
        eexists. split; [|by apply vs_timeout].
        apply view_of_Some; simpl. rewrite list_insert_id by done. done.
      * rewrite (process_received_runs _ _ r Hr) in Hexec.
        injection Hexec as <-. split; [done|].
        split; [by intros l Hl; simpl; rewrite heap_bump_other|].
        eexists. split; [|by apply vs_dequeue].
        apply view_of_Some; simpl. unfold received, unique_processed, duplicate_dropped; simpl.
        rewrite !(counter_bump _ _ _ _ r Hr), store_bump. done.
    + destruct io as [|e].
      * destruct (decide (key_of event ∈ rows)) as [Hin | Hnotin].
        -- destruct (process_check_duplicate self event (Z.of_nat i) w rows d)
             as [rec Hpc]; [done..|].
           rewrite Hpc in Hexec.
           destruct (worker_done_keeps (Z.of_nat i) (mkQueue m q uf)
                       (add_log rec (bump "duplicate_dropped" self w)))
             as (q'' & w'' & Hwd & Hm' & Hq' & Hheap & Hdisk).
           rewrite Hwd in Hexec. injection Hexec as <-. split; [done|].
           split; [by intros l Hl; simpl; rewrite Hheap; simpl; rewrite heap_bump_other|].
           eexists. split; [|by eapply vs_check_duplicate].
           apply view_of_Some; simpl.
           unfold received, unique_processed, duplicate_dropped; simpl.
           rewrite !(counter_same_heap _ _ _ _ Hheap), (store_same_disk _ _ _ Hdisk).
           rewrite !counter_add_log, store_add_log, store_bump.
           rewrite !(counter_bump _ _ _ _ d Hd). done.
        -- rewrite (process_check_new _ _ _ _ rows) in Hexec by done.
           injection Hexec as <-. split; [done|]. split; [done|].
           eexists. split; [|by eapply vs_check_new].
           apply view_of_Some; simpl. done.
      * rewrite process_check_fault in Hexec.
        injection Hexec as <-. split; [done|]. split; [done|].
        eexists. split; [|by eapply vs_check_fault].
        apply view_of_Some; simpl. done.
    + destruct io as [|e].
      * destruct (decide (key_of event ∈ rows)) as [Hin | Hnotin].
        -- destruct (process_mark_lost self event (Z.of_nat i) w rows d)
             as (r1 & r2 & r3 & Hpm); [done..|].
           rewrite Hpm in Hexec.
           destruct (worker_done_keeps (Z.of_nat i) (mkQueue m q uf)
                       (add_log r3 (bump "duplicate_dropped" self (add_log r2 (add_log r1 w)))))
             as (q'' & w'' & Hwd & Hm' & Hq' & Hheap & Hdisk).
           rewrite Hwd in Hexec. injection Hexec as <-. split; [done|].
           split; [by intros l Hl; simpl; rewrite Hheap; simpl; rewrite heap_bump_other|].
           eexists. split; [|by eapply vs_mark_lost].
           apply view_of_Some; simpl.
           unfold received, unique_processed, duplicate_dropped; simpl.
           rewrite !(counter_same_heap _ _ _ _ Hheap), (store_same_disk _ _ _ Hdisk).
           rewrite !counter_add_log, store_add_log, store_bump.
           rewrite !(counter_bump _ _ _ _ d) by done. done.
        -- destruct (process_mark_new self event (Z.of_nat i) w rows u)
             as (r1 & r2 & r3 & Hpm); [done..|].
           rewrite Hpm in Hexec.
           destruct (worker_done_keeps (Z.of_nat i) (mkQueue m q uf)
                       (add_log r3 (bump "unique_processed" self
                          (add_log r2 (set_disk (insert (db_path (database self))
                                                   (rows ++ [key_of event]))
                             (add_log r1 w))))))
             as (q'' & w'' & Hwd & Hm' & Hq' & Hheap & Hdisk).
           rewrite Hwd in Hexec. injection Hexec as <-. split; [done|].
           split; [by intros l Hl; simpl; rewrite Hheap; simpl; rewrite heap_bump_other|].
           eexists. split; [|by eapply vs_mark_new].
           apply view_of_Some; simpl.
           unfold received, unique_processed, duplicate_dropped; simpl.
           rewrite !(counter_same_heap _ _ _ _ Hheap), (store_same_disk _ _ _ Hdisk).
           rewrite !counter_add_log, store_add_log, store_bump.
           rewrite !(counter_bump _ _ _ _ u) by done.
           unfold store; simpl. rewrite lookup_insert_eq. done.
      * rewrite (process_mark_fault _ _ _ _ _ d) in Hexec by done.
        match type of Hexec with
        | context [worker_done ?a ?b ?c] =>
            destruct (worker_done_keeps a b c)
              as (q'' & w'' & Hwd & Hm' & Hq' & Hheap & Hdisk)
        end.
        rewrite Hwd in Hexec. injection Hexec as <-. split; [done|].
        split; [by intros l Hl; simpl; rewrite Hheap; simpl; rewrite heap_bump_other|].
        eexists. split; [|by eapply vs_mark_fault].
        apply view_of_Some; simpl.
        unfold received, unique_processed, duplicate_dropped; simpl.
        rewrite !(counter_same_heap _ _ _ _ Hheap), (store_same_disk _ _ _ Hdisk).
        rewrite !counter_add_log, store_add_log, store_bump.
        rewrite !(counter_bump _ _ _ _ d) by done. done.
Qed.

Lemma run_refines (sched : list action) (s s' : System) (v : view) :
  view_of s = Some v →
  run sched s = Some s' →
  processor s' = processor s ∧
  (∀ l : nat, l ≠ stats (processor s) → heap (world s') !! l = heap (world s) !! l) ∧
  ∃ v' : view, view_of s' = Some v' ∧ vrun sched v v'.
Proof.
  revert s v. induction sched as [|a sched IH]; intros s v Hv Hrun; simpl in Hrun.
  - injection Hrun as <-. split; [done|]. split; [done|].
    exists v. split; [done|constructor].
  - destruct (exec a s) as [s1|] eqn:Hexec; simpl in Hrun; [|done].
    destruct (exec_refines a s s1 v Hv Hexec) as (Hp1 & Hf1 & v1 & Hv1 & Hstep).
    destruct (IH s1 v1 Hv1 Hrun) as (Hp & Hf & v' & Hv' & Hvrun).
    split; [congruence|]. split.
    + intros l Hl. rewrite Hf by congruence. by apply Hf1.
    + exists v'. split; [done|]. by econstructor.
Qed.

Lemma workers_started_logs (n : nat) (first : Z) (w : World) :
  ∃ w' : World,
    workers_started n first w = (Return tt, w') ∧ disk w' = disk w ∧ heap w' = heap w.
Proof.
  revert first w. induction n as [|n IH]; intros first w; simpl.
  - by exists w.
  - unfold mbind, Py_bind; simpl.
    destruct (IH (first + 1) (add_log (LogRecord INFO ("Worker " +:+ pretty first +:+ " started")) w))
      as (w' & -> & Hd & Hh).
    by exists w'.
Qed.

Lemma lifespan_view (cfg : Config) (w0 : World) (s0 : System) :
  lifespan cfg Completes w0 = Return s0 →
  view_of s0 =
    Some (mkView 0 0 0 (default [] (disk w0 !! DEDUP_DB_PATH cfg)) (QUEUE_MAX_SIZE cfg) []
            (replicate (Z.to_nat (CONSUMER_WORKERS cfg)) Idle) []).
Proof.
  unfold lifespan, mbind, Py_bind; simpl. rewrite Database_new_completes.
  unfold EventProcessor_new, dict_new, mbind, Py_bind, mret, Py_ret; simpl.
  match goal with
  | |- context [workers_started ?n ?z ?w] =>
      destruct (workers_started_logs n z w) as (w' & -> & Hdisk & Hheap)
  end.
  intros [= <-]. apply view_of_Some; simpl.
  unfold received, unique_processed, duplicate_dropped, counter, store; simpl.
  rewrite Hdisk, Hheap; simpl.
  destruct (disk w0 !! DEDUP_DB_PATH cfg) as [rows|] eqn:Hrows; simpl;
    rewrite lookup_app_r, Nat.sub_diag by done; simpl.
  - rewrite Hrows. done.
  - rewrite lookup_insert_eq. done.
Qed.

(** ** Invariants of the moves *)

Lemma busy_insert (ws : list worker_state) (i : nat) (st st' : worker_state) :
  ws !! i = Some st →
  busy (<[i := st']> ws) = busy ws - holds_event st + holds_event st'.
Proof.
  revert i. induction ws as [|st0 ws IH]; intros [|i] Hi; simpl in *; try done.
  - injection Hi as ->. lia.
  - rewrite (IH i Hi). lia.
Qed.

Lemma busy_nonneg (ws : list worker_state) : 0 ≤ busy ws.
Proof. induction ws as [|[] ws IH]; simpl; lia. Qed.

Lemma busy_idle (ws : list worker_state) :
  Forall (λ st, st = Idle) ws → busy ws = 0.
Proof. induction 1 as [|st ws -> _ IH]; simpl; lia. Qed.

Lemma busy_replicate_idle (n : nat) : busy (replicate n Idle) = 0.
Proof. induction n; simpl; lia. Qed.

(** Without a failed call of the engine the balance is kept. *)
Lemma vstep_balanced (a : action) (v v' : view) :
  vstep a v v' →
  (∀ i e, a ≠ Work i (Faults e)) →
  balanced v → balanced v'.
Proof.
  unfold balanced.
  intros Hstep Hok; destruct Hstep; simpl; intros Hb;
    try (exfalso; by eapply Hok);
    try erewrite busy_insert by eassumption; simpl; lia.
Qed.

Lemma fault_free_cons (a : action) (sched : list action) :
  fault_free (a :: sched) = true →
  (∀ i e, a ≠ Work i (Faults e)) ∧ fault_free sched = true.
Proof.
  unfold fault_free; simpl. intros [Ha Hsched]%andb_true_iff. split; [|done].
  by intros i e ->.
Qed.

Lemma vrun_balanced (sched : list action) (v v' : view) :
  vrun sched v v' → fault_free sched = true → balanced v → balanced v'.
Proof.
  induction 1 as [|a sched v1 v2 v3 Hstep _ IH]; [done|].
  intros [Ha Hsched]%fault_free_cons Hb.
  apply IH; [done|]. by eapply vstep_balanced.
Qed.

(** The counters never go down, whatever the engine does. *)
Lemma vstep_monotone (a : action) (v v' : view) :
  vstep a v v' →
  v_received v ≤ v_received v' ∧ v_unique v ≤ v_unique v' ∧
  v_duplicate v ≤ v_duplicate v'.
Proof. destruct 1; simpl; lia. Qed.

Lemma vrun_nonneg (sched : list action) (v v' : view) :
  vrun sched v v' → counters_nonneg v → counters_nonneg v'.
Proof.
  unfold counters_nonneg.
  induction 1 as [|a sched v1 v2 v3 Hstep _ IH]; [done|].
  intros Hv. apply IH. apply vstep_monotone in Hstep. lia.
Qed.

Lemma held_key (key : string * string) (ws : list worker_state) (i : nat)
    (st : worker_state) (event : Event) :
  Forall (λ st, ∀ event, held st = Some event → key_of event = key) ws →
  ws !! i = Some st → held st = Some event → key_of event = key.
Proof. intros Hall Hi Hheld. by eapply (Forall_lookup_1 _ _ _ _ Hall Hi). Qed.

Lemma vstep_single_key (key : string * string) (p : Z) (a : action) (v v' : view) :
  vstep a v v' →
  (∀ i e, a ≠ Work i (Faults e)) →
  (∀ event, a = Publish event → key_of event = key) →
  single_key key p v →
  single_key key (p + match a with Publish _ => 1 | _ => 0 end) v'.
Proof.
  intros Hstep Hok Hpub (Hcount & Hbal & Hu & Hd0 & Hdk & Hq & Hp & Hw).
  unfold single_key, balanced in *.
  destruct Hstep; simpl in *; try (exfalso; by eapply Hok).
  - (* publish *)
    rewrite length_app; simpl. split_and!; try done; try lia.
    apply Forall_app; split; [done|]. constructor; [by apply Hpub | constructor].
  - (* publish, suspended *)
    rewrite length_app; simpl. split_and!; try done; try lia.
    apply Forall_app; split; [done|]. constructor; [by apply Hpub | constructor].
  - (* resume *)
    assert (Hlen : (length ps = S (length (delete n ps)))%nat).
    { rewrite length_delete by eauto. apply lookup_lt_Some in H. lia. }
    rewrite length_app; simpl. split_and!; try done; try lia.
    + apply Forall_app; split; [done|].
      constructor; [|constructor]. by eapply (Forall_lookup_1 _ _ _ _ Hp).
    + by apply Forall_delete.
  - (* resume, still suspended *)
    split_and!; try done; lia.
  - (* time-out *)
    split_and!; try done; lia.
  - (* dequeue *)
    rewrite (busy_insert _ _ _ _ H); simpl.
    apply Forall_cons in Hq as [Hev Hq].
    split_and!; try done; try lia.
    apply Forall_insert; [done|]. by intros ? [= <-].
  - (* check: duplicate *)
    rewrite (busy_insert _ _ _ _ H); simpl.
    assert (key_of event = key) as <- by by eapply held_key.
    split_and!; try done; try lia.
    apply Forall_insert; [done|]. by intros ? [=].
  - (* check: new *)
    rewrite (busy_insert _ _ _ _ H); simpl.
    assert (key_of event = key) as <- by by eapply held_key.
    split_and!; try done; try lia.
    apply Forall_insert; [done|]. by intros ? [= <-].
  - (* mark: new *)
    rewrite (busy_insert _ _ _ _ H); simpl.
    assert (key_of event = key) as <- by by eapply held_key.
    rewrite decide_False in Hu by done.
    rewrite decide_True by (rewrite elem_of_app, list_elem_of_singleton; by right).
    split_and!; try done; try lia.
    + intros _. rewrite elem_of_app, list_elem_of_singleton; by right.
    + apply Forall_insert; [done|]. by intros ? [=].
  - (* mark: lost the race *)
    rewrite (busy_insert _ _ _ _ H); simpl.
    assert (key_of event = key) as <- by by eapply held_key.
    split_and!; try done; try lia.
    apply Forall_insert; [done|]. by intros ? [=].
Qed.

Lemma published_cons (a : action) (sched : list action) :
  Z.of_nat (length (published (a :: sched))) =
  match a with Publish _ => 1 | _ => 0 end + Z.of_nat (length (published sched)).
Proof. destruct a; simpl; lia. Qed.

Lemma vrun_single_key (key : string * string) (p : Z) (sched : list action) (v v' : view) :
  vrun sched v v' →
  fault_free sched = true →
  Forall (λ event, key_of event = key) (published sched) →
  single_key key p v →
  single_key key (p + Z.of_nat (length (published sched))) v'.
Proof.
  intros Hrun. revert p.
  induction Hrun as [|a sched v1 v2 v3 Hstep _ IH]; intros p Hff Hpub Hinv.
  - simpl. by rewrite Z.add_0_r.
  - apply fault_free_cons in Hff as [Ha Hff].
    rewrite published_cons, Z.add_assoc. apply IH; [done| |].
    + destruct a; simpl in Hpub; try done. by apply Forall_cons in Hpub as [_ ?].
    + apply (vstep_single_key key p a v1 v2 Hstep Ha); [|done].
      intros event ->. simpl in Hpub. by apply Forall_cons in Hpub as [? _].
Qed.

(** ** Claims about runs *)





(** C1.  Start the application on a store without the pair
    [(topic_, event_id_)] and publish events with that pair [k >= 1] times,
    interleaved in any way with the steps of any number of workers, the
    engine failing no call.  When the queue is drained and no worker holds
    an event, [unique_processed] is 1 and [duplicate_dropped] is [k - 1]. *)
Theorem same_key_processed_once
    (cfg : Config) (w0 : World) (s0 : System) (topic_ event_id_ : string)
    (sched : list action) (s : System) :
  lifespan cfg Completes w0 = Return s0 →
  (∀ rows, disk w0 !! DEDUP_DB_PATH cfg = Some rows → (topic_, event_id_) ∉ rows) →
  Forall (λ event, topic event = topic_ ∧ event_id event = event_id_) (published sched) →
  fault_free sched = true →
  run sched s0 = Some s →
  quiescent s →
  1 ≤ Z.of_nat (length (published sched)) →
  received s = Some (Z.of_nat (length (published sched))) ∧
  unique_processed s = Some 1 ∧
  duplicate_dropped s = Some (Z.of_nat (length (published sched)) - 1).
Proof.
  intros Hstart Hfresh Hpub Hff Hrun (Hq & Hp & Hidle) Hk.
  pose proof (lifespan_view _ _ _ Hstart) as Hv0.
  destruct (run_refines _ _ _ _ Hv0 Hrun) as (_ & _ & v & Hv & Hvrun).
  apply (vrun_single_key (topic_, event_id_) 0) in Hvrun; [|done| |].
  2: { eapply Forall_impl; [exact Hpub|]. intros event [<- <-]. done. }
  2: { unfold single_key, balanced; simpl.
       rewrite busy_replicate_idle.
       rewrite decide_False.
       2: { destruct (disk w0 !! DEDUP_DB_PATH cfg) as [rows|] eqn:Hrows; simpl.
            - by apply Hfresh.
            - by intros ?%elem_of_nil. }
       split_and!; try done; try lia.
       by apply Forall_replicate. }
  apply view_of_Some in Hv as (Hr & Hu & Hd & _ & _ & Hvq & Hws & Hvp).
  rewrite Hr, Hu, Hd.
  destruct Hvrun as (Hcount & Hbal & Hone & Hd0 & Hdk & _).
  unfold balanced in Hbal.
  rewrite <- Hvq, Hq in Hcount. rewrite <- Hvp, Hp in Hcount. simpl in Hcount.
  rewrite <- Hws, (busy_idle _ Hidle) in Hbal.
  destruct (decide ((topic_, event_id_) ∈ v_rows v)) as [Hin | Hnotin].
  - repeat split; f_equal; lia.
  - exfalso. destruct (decide (0 < v_duplicate v)) as [Hpos|Hzero]; [by apply Hnotin, Hdk|]. lia.
Qed.

Lemma exec_work_enabled (s : System) (i : nat) (io : sqlite_io) (st : worker_state) :
  workers s !! i = Some st → is_Some (exec (Work i io) s).
Proof.
  intros Hi. unfold exec. rewrite Hi; simpl.
  destruct (_worker _ _ _ _ _ _) as [[st' q] w]. eauto.
Qed.

(** C6.  A worker that holds an event and waits in [mark_processed] when
    the engine fails that call: [mark_processed] hands [False] to the
    worker, which takes it for a lost race and counts the event in
    [duplicate_dropped].  [unique_processed] and the rows of the store are
    as before, the worker is idle again, and the event is not put back in
    the queue. *)
Theorem mark_fault_counted_as_duplicate
    (s : System) (v : view) (i : nat) (event : Event) (e : exn) :
  view_of s = Some v →
  workers s !! i = Some (Marking event) →
  ∃ s' : System,
    exec (Work i (Faults e)) s = Some s' ∧
    received s' = Some (v_received v) ∧
    unique_processed s' = Some (v_unique v) ∧
    duplicate_dropped s' = Some (v_duplicate v + 1) ∧
    store (database (processor s')) (world s') = Some (v_rows v) ∧
    workers s' = <[i := Idle]> (workers s) ∧
    items (event_queue s') = items (event_queue s).
Proof.
  intros Hv Hi.
  destruct (exec_work_enabled s i (Faults e) _ Hi) as [s' Hexec].
  exists s'. split; [done|].
  destruct (exec_refines _ _ _ _ Hv Hexec) as (_ & _ & v' & Hv' & Hstep).
  apply view_of_Some in Hv as (_ & _ & _ & _ & _ & Hq & Hws & _).
  apply view_of_Some in Hv' as (Hr' & Hu' & Hd' & Hrows' & _ & Hq' & Hws' & _).
  rewrite Hws in Hi.
  inversion Hstep; subst; simpl in *; try congruence.
  split_and!; congruence.
Qed.

(** C9.  In every state the application reaches from start-up, whatever
    the engine does: the three counters are integers that are not
    negative, and no step makes one of them smaller.  [get_stats] returns
    a new dictionary, not the one the workers update, with the values the
    counters have at the call, and no later step changes it. *)
Theorem get_stats_copies_and_counters_grow
    (cfg : Config) (w0 : World) (s0 : System) (sched : list action) (s : System) :
  lifespan cfg Completes w0 = Return s0 →
  run sched s0 = Some s →
  ∃ (r u d : Z) (snapshot : nat) (w1 : World) (m : gmap string Z),
    (received s = Some r ∧ unique_processed s = Some u ∧ duplicate_dropped s = Some d) ∧
    (0 ≤ r ∧ 0 ≤ u ∧ 0 ≤ d) ∧
    get_stats (processor s) (world s) = (Return snapshot, w1) ∧
    snapshot ≠ stats (processor s) ∧
    heap w1 !! snapshot = Some m ∧
    (m !! "received" = Some r ∧ m !! "unique_processed" = Some u ∧
     m !! "duplicate_dropped" = Some d) ∧
    (∀ (later : list action) (s' : System),
       run later (mkSystem w1 (event_queue s) (processor s) (workers s) (putters s)) = Some s' →
       heap (world s') !! snapshot = Some m) ∧
    (∀ (a : action) (s' : System),
       exec a s = Some s' →
       ∃ r' u' d' : Z,
         received s' = Some r' ∧ unique_processed s' = Some u' ∧
         duplicate_dropped s' = Some d' ∧ r ≤ r' ∧ u ≤ u' ∧ d ≤ d').
Proof.
  intros Hstart Hrun.
  pose proof (lifespan_view _ _ _ Hstart) as Hv0.
  destruct (run_refines _ _ _ _ Hv0 Hrun) as (_ & _ & v & Hv & Hvrun).
  apply vrun_nonneg in Hvrun; [|unfold counters_nonneg; simpl; lia].
  pose proof Hv as (Hr & Hu & Hd & Hrows & Hm & Hq & Hws & Hps)%view_of_Some.
  unfold received, unique_processed, duplicate_dropped, counter in Hr, Hu, Hd.
  destruct (heap (world s) !! stats (processor s)) as [m|] eqn:Hheap; simpl in *; [|done].
  exists (v_received v), (v_unique v), (v_duplicate v),
    (length (heap (world s))), (set_heap (λ h, h ++ [m]) (world s)), m.
  unfold received, unique_processed, duplicate_dropped, counter. rewrite Hheap; simpl.
  pose proof (lookup_lt_Some _ _ _ Hheap) as Hlt.
  assert (Hsnap : (heap (world s) ++ [m]) !! length (heap (world s)) = Some m).
  { by rewrite lookup_app_r, Nat.sub_diag by done. }
  split_and!; try done; try apply Hvrun.
  - unfold get_stats, dict_copy, dict_new. by rewrite Hheap.
  - lia.
  - intros later s' Hlater.
    assert (Hv1 : view_of (mkSystem (set_heap (λ h, h ++ [m]) (world s)) (event_queue s)
                             (processor s) (workers s) (putters s)) = Some v).
    { apply view_of_Some; simpl.
      unfold received, unique_processed, duplicate_dropped, counter; simpl.
      rewrite lookup_app_l by done. rewrite Hheap; simpl. done. }
    destruct (run_refines _ _ _ _ Hv1 Hlater) as (_ & Hframe & _).
    simpl in Hframe. rewrite Hframe by lia. done.
  - intros a s' Hexec.
    destruct (exec_refines _ _ _ _ Hv Hexec) as (_ & _ & v' & Hv' & Hstep).
    apply view_of_Some in Hv' as (Hr' & Hu' & Hd' & _).
    exists (v_received v'), (v_unique v'), (v_duplicate v').
    apply vstep_monotone in Hstep.
    unfold received, unique_processed, duplicate_dropped, counter in Hr', Hu', Hd'.
    split_and!; try done; lia.
Qed.

(** C4.  With the queue at capacity, [publish_event] does not answer: the
    handler stays suspended in [await event_queue.put(event)], and so does
    [publish_batch] at its first event.  The queue, the counters and the
    store are as before; the event waits with the handler. *)
Theorem publish_on_full_queue_suspends
    (event : Event) (rest : list Event) (s : System) :
  full (event_queue s) = true →
  publish_event event (event_queue s) (world s) = Suspends (event_queue s) (world s) ∧
  publish_batch (event :: rest) (event_queue s) (world s) =
    Suspends (event_queue s) (world s) ∧
  exec (Publish event) s =
    Some (mkSystem (world s) (event_queue s) (processor s) (workers s)
            (putters s ++ [event])).
Proof.
  intros Hfull. unfold exec, publish_batch, publish_batch_loop, publish_event, Queue_put.
  by rewrite Hfull.
Qed.

Lemma publish_event_never_rejects (event : Event) (q : Queue) (w : World)
    (r : result Accepted) (q' : Queue) (w' : World) :
  publish_event event q w = Responds r q' w' →
  r = Return (mkAccepted (event_id event) (topic event)) ∧ full q = false.
Proof.
  unfold publish_event, Queue_put. destruct (full q); [done|]. by intros [= <- _ _].
Qed.

(** ** Progress *)

Lemma calls_left_insert (ws : list worker_state) (i : nat) (st st' : worker_state) :
  ws !! i = Some st →
  (calls_pending (<[i := st']> ws) + calls_left st =
   calls_pending ws + calls_left st')%nat.
Proof.
  revert i. induction ws as [|st0 ws IH]; intros [|i] Hi; simpl in *; try done.
  - injection Hi as ->. lia.
  - specialize (IH i Hi). lia.
Qed.

Lemma calls_left_none (ws : list worker_state) :
  calls_pending ws = 0%nat → Forall (λ st, st = Idle) ws.
Proof.
  induction ws as [|st ws IH]; simpl; [constructor|].
  intros H. constructor; [destruct st; simpl in H; (done || lia)|apply IH; lia].
Qed.

Lemma calls_left_some (ws : list worker_state) :
  calls_pending ws ≠ 0%nat →
  ∃ (i : nat) (st : worker_state), ws !! i = Some st ∧ st ≠ Idle.
Proof.
  induction ws as [|st ws IH]; simpl; [done|].
  destruct st as [|event|event].
  - intros H. destruct IH as (i & st & Hi & Hst); [simpl in H; lia|].
    by exists (S i), st.
  - intros _. by exists 0%nat, (Checking event).
  - intros _. by exists 0%nat, (Marking event).
Qed.

(** From every state with a worker there is a step, without a new request
    and without a failing engine, that leaves less to do. *)
Lemma one_step_closer (s : System) (v : view) :
  view_of s = Some v →
  v_workers v ≠ [] →
  work_left v ≠ 0%nat →
  ∃ (a : action) (s' : System) (v' : view),
    engine_completes a = true ∧ published [a] = [] ∧
    exec a s = Some s' ∧ view_of s' = Some v' ∧
    v_workers v' ≠ [] ∧ (work_left v' < work_left v)%nat.
Proof.
  intros Hv Hws Hleft.
  pose proof Hv as (_ & _ & _ & _ & _ & Hq & Hw & Hp)%view_of_Some.
  destruct v as [r u d rows m q ws ps]; unfold work_left in *; simpl in *.
  destruct (decide (calls_pending ws = 0%nat)) as [Hidle | Hbusy].
  - destruct q as [|event q].
    + (* only suspended handlers are left *)
      destruct ps as [|event ps]; [exfalso; apply Hleft; by rewrite Hidle|].
      assert (Hexec : is_Some (exec (ResumePut 0) s)).
      { unfold exec. rewrite Hp; simpl. destruct (publish_event _ _ _); eauto. }
      destruct Hexec as [s' Hexec].
      destruct (exec_refines _ _ _ _ Hv Hexec) as (_ & _ & v' & Hv' & Hstep).
      exists (ResumePut 0), s', v'. split_and!; try done.
      * by inversion Hstep; subst.
      * inversion Hstep as [| |n ev ? ? ? ? ? ? ? ? Hn Hroom|n ev ? ? ? ? ? ? ? ? Hn Hroom
                            | | | | | | | |]; subst; simpl in *.
        -- lia.
        -- unfold no_room in Hroom.
           destruct (m <=? 0) eqn:Hm; [done|]. change (Z.of_nat (length [])) with 0 in Hroom.
           congruence.
    + (* a worker takes the next event *)
      destruct ws as [|st ws]; [done|].
      assert (st = Idle) as ->.
      { apply calls_left_none in Hidle. by apply Forall_cons in Hidle as [? _]. }
      assert (Hexec : is_Some (exec (Work 0 Completes) s)).
      { apply (exec_work_enabled _ _ _ Idle). by rewrite Hw. }
      destruct Hexec as [s' Hexec].
      destruct (exec_refines _ _ _ _ Hv Hexec) as (_ & _ & v' & Hv' & Hstep).
      exists (Work 0 Completes), s', v'. split_and!; try done.
      * by inversion Hstep; subst.
      * inversion Hstep; subst; simpl in *; try done. lia.
  - (* a worker goes on with the event it holds *)
    destruct (calls_left_some _ Hbusy) as (i & st & Hi & Hst).
    assert (Hexec : is_Some (exec (Work i Completes) s)).
    { apply (exec_work_enabled _ _ _ st). by rewrite Hw. }
    destruct Hexec as [s' Hexec].
    destruct (exec_refines _ _ _ _ Hv Hexec) as (_ & _ & v' & Hv' & Hstep).
    exists (Work i Completes), s', v'. split_and!; try done.
    + inversion Hstep; subst; simpl in *; try done;
        intros Hnil; apply (f_equal length) in Hnil; rewrite length_insert in Hnil;
        apply lookup_lt_Some in Hi; simpl in Hnil; lia.
    + destruct st as [|event|event]; [done| |];
        inversion Hstep; subst; simpl in *; try congruence;
        match goal with
        | H : ?w !! i = Some ?st0 |- context [<[i := ?st1]> ?w] =>
            pose proof (calls_left_insert w i st0 st1 H) as Hsum
        end; simpl in Hsum; lia.
Qed.

Lemma no_work_left_quiescent (s : System) (v : view) :
  view_of s = Some v → work_left v = 0%nat → quiescent s.
Proof.
  intros (_ & _ & _ & _ & _ & Hq & Hw & Hp)%view_of_Some Hleft.
  unfold work_left in Hleft. unfold quiescent. rewrite Hq, Hw, Hp.
  split_and!.
  - destruct (v_queue v); [done|simpl in Hleft; lia].
  - destruct (v_putters v); [done|simpl in Hleft; lia].
  - apply calls_left_none. lia.
Qed.

(** With at least one worker, the application can always be run to
    quiescence without a failing engine and without a new request. *)
Lemma drains (s : System) (v : view) :
  view_of s = Some v →
  v_workers v ≠ [] →
  ∃ (sched : list action) (s' : System),
    fault_free sched = true ∧ published sched = [] ∧
    run sched s = Some s' ∧ quiescent s'.
Proof.
  remember (work_left v) as n eqn:Hn.
  revert s v Hn. induction (lt_wf n) as [n _ IH]. intros s v -> Hv Hws.
  destruct (decide (work_left v = 0%nat)) as [Hzero | Hmore].
  - exists [], s. split_and!; try done. by eapply no_work_left_quiescent.
  - destruct (one_step_closer s v Hv Hws Hmore)
      as (a & s1 & v1 & Ha & Hpa & Hexec & Hv1 & Hws1 & Hlt).
    destruct (IH _ Hlt s1 v1 eq_refl Hv1 Hws1) as (sched & s' & Hff & Hpub & Hrun & Hq).
    exists (a :: sched), s'. split_and!; try done.
    + unfold fault_free in *; simpl. by rewrite Ha, Hff.
    + destruct a; simpl in *; congruence.
    + simpl. by rewrite Hexec.
Qed.

Lemma vstep_workers_length (a : action) (v v' : view) :
  vstep a v v' → length (v_workers v') = length (v_workers v).
Proof. destruct 1; simpl; by rewrite ?length_insert. Qed.

Lemma vrun_workers_length (sched : list action) (v v' : view) :
  vrun sched v v' → length (v_workers v') = length (v_workers v).
Proof.
  induction 1 as [|a sched v1 v2 v3 Hstep _ IH]; [done|].
  rewrite IH. by eapply vstep_workers_length.
Qed.

Lemma run_app (sched more : list action) (s : System) :
  run (sched ++ more) s = run sched s ≫= run more.
Proof.
  revert s. induction sched as [|a sched IH]; intros s; simpl; [done|].
  destruct (exec a s); simpl; [apply IH|done].
Qed.

(** Whatever has happened since start-up, with at least one worker the
    application can go on to quiescence: the runs that C1 and C3 speak of
    exist. *)
Lemma every_run_can_be_drained
    (cfg : Config) (w0 : World) (s0 : System) (sched : list action) (s : System) :
  lifespan cfg Completes w0 = Return s0 →
  0 < CONSUMER_WORKERS cfg →
  run sched s0 = Some s →
  ∃ (more : list action) (s' : System),
    fault_free more = true ∧ published more = [] ∧
    run (sched ++ more) s0 = Some s' ∧ quiescent s'.
Proof.
  intros Hstart Hn Hrun.
  pose proof (lifespan_view _ _ _ Hstart) as Hv0.
  destruct (run_refines _ _ _ _ Hv0 Hrun) as (_ & _ & v & Hv & Hvrun).
  apply vrun_workers_length in Hvrun; simpl in Hvrun.
  rewrite length_replicate in Hvrun.
  destruct (drains s v Hv) as (more & s' & Hff & Hpub & Hmore & Hq).
  { intros Hnil. rewrite Hnil in Hvrun. simpl in Hvrun. lia. }
  exists more, s'. split_and!; try done.
  rewrite run_app, Hrun. done.
Qed.

(** A failing existence check is not swallowed: the exception leaves
    [_process_event], the loop of the worker logs it and goes on.  The
    event stays counted in [received] alone. *)
Lemma check_fault_counts_received_only
    (s : System) (v : view) (i : nat) (event : Event) (e : exn) :
  view_of s = Some v →
  workers s !! i = Some (Checking event) →
  ∃ s' : System,
    exec (Work i (Faults e)) s = Some s' ∧
    received s' = Some (v_received v) ∧
    unique_processed s' = Some (v_unique v) ∧
    duplicate_dropped s' = Some (v_duplicate v) ∧
    store (database (processor s')) (world s') = Some (v_rows v) ∧
    workers s' = <[i := Idle]> (workers s).
Proof.
  intros Hv Hi.
  destruct (exec_work_enabled s i (Faults e) _ Hi) as [s' Hexec].
  exists s'. split; [done|].
  destruct (exec_refines _ _ _ _ Hv Hexec) as (_ & _ & v' & Hv' & Hstep).
  apply view_of_Some in Hv as (_ & _ & _ & _ & _ & Hq & Hws & _).
  apply view_of_Some in Hv' as (Hr' & Hu' & Hd' & Hrows' & _ & Hq' & Hws' & _).
  rewrite Hws in Hi.
  inversion Hstep; subst; simpl in *; try congruence.
  split_and!; congruence.
Qed.

(** [_process_event] is its three stretches, one after the other. *)
Lemma _process_event_stretches (self : EventProcessor) (event : Event) (worker_id : Z)
    (io_check io_mark : sqlite_io) (w : World) :
  _process_event self event worker_id io_check io_mark w =
    match process_received self w with
    | (Raise e, w1) => (Raise e, w1)
    | (Return _, w1) =>
        match process_check self event worker_id io_check w1 with
        | (Raise e, w2) => (Raise e, w2)
        | (Return true, w2) => (Return tt, w2)
        | (Return false, w2) => process_mark self event worker_id io_mark w2
        end
    end.
Proof.
  unfold _process_event, mbind, Py_bind.
  destruct (process_received self w) as [[[]|e] w1]; [|done].
  by destruct (process_check self event worker_id io_check w1) as [[[|]|e] w2].
Qed.

(** ** Validation of events *)

Lemma byte_chr (n : Z) : 0 ≤ n < 256 → byte (chr n) = n.
Proof.
  intros Hn. unfold byte, chr. rewrite nat_ascii_embedding by lia. lia.
Qed.

Lemma code_points_utf8_char (c : Z) (s : string) :
  0 ≤ c < 1114112 → code_points (utf8_char c +:+ s) = c :: code_points s.
Proof.
  intros Hc. unfold utf8_char.
  destruct (Z.ltb_spec c 128).
  { simpl. rewrite byte_chr by lia. destruct (Z.ltb_spec c 128); [done|lia]. }
  destruct (Z.ltb_spec c 2048).
  { simpl. unfold low6. rewrite !byte_chr by (Z.div_mod_to_equations; lia).
    destruct (Z.ltb_spec (192 + c / 64) 128); [Z.div_mod_to_equations; lia|].
    destruct (Z.ltb_spec (192 + c / 64) 224); [|Z.div_mod_to_equations; lia].
    f_equal. Z.div_mod_to_equations; lia. }
  destruct (Z.ltb_spec c 65536).
  { simpl. unfold low6. rewrite !byte_chr by (Z.div_mod_to_equations; lia).
    destruct (Z.ltb_spec (224 + c / 4096) 128); [Z.div_mod_to_equations; lia|].
    destruct (Z.ltb_spec (224 + c / 4096) 224); [Z.div_mod_to_equations; lia|].
    destruct (Z.ltb_spec (224 + c / 4096) 240); [|Z.div_mod_to_equations; lia].
    f_equal. Z.div_mod_to_equations; lia. }
  simpl. unfold low6. rewrite !byte_chr by (Z.div_mod_to_equations; lia).
  destruct (Z.ltb_spec (240 + c / 262144) 128); [Z.div_mod_to_equations; lia|].
  destruct (Z.ltb_spec (240 + c / 262144) 224); [Z.div_mod_to_equations; lia|].
  destruct (Z.ltb_spec (240 + c / 262144) 240); [Z.div_mod_to_equations; lia|].
  f_equal. Z.div_mod_to_equations; lia.
Qed.

(** Every [str] is held by a [string]. *)
Lemma code_points_utf8 (cs : list Z) :
  Forall (λ c, 0 ≤ c < 1114112) cs → code_points (utf8 cs) = cs.
Proof.
  induction 1 as [|c cs Hc _ IH]; [done|].
  change (utf8 (c :: cs)) with (utf8_char c +:+ utf8 cs).
  by rewrite code_points_utf8_char, IH.
Qed.


Lemma py_lstrip_blank (s : list Z) : py_lstrip s = [] ↔ forallb py_isspace s = true.
Proof.
  induction s as [|c s IH]; simpl; [done|].
  destruct (py_isspace c); simpl; [done|]. split; discriminate.
Qed.

Lemma py_lstrip_head (s : list Z) :
  py_lstrip s = [] ∨ ∃ c s', py_lstrip s = c :: s' ∧ py_isspace c = false.
Proof.
  induction s as [|c s IH]; simpl; [by left|].
  destruct (py_isspace c) eqn:Hc; [done|]. right. eauto.
Qed.

Lemma forallb_rev {A : Type} (f : A → bool) (l : list A) :
  forallb f (rev l) = forallb f l.
Proof.
  induction l as [|x l IH]; simpl; [done|].
  rewrite forallb_app. simpl. rewrite IH. destruct (f x), (forallb f l); done.
Qed.

Lemma py_strip_blank_code_points (s : list Z) :
  py_strip s = [] ↔ forallb py_isspace s = true.
Proof.
  unfold py_strip. rewrite <- (py_lstrip_blank s). split.
  - intros H. apply (f_equal (@rev Z)) in H. rewrite rev_involutive in H. simpl in H.
    apply py_lstrip_blank in H. rewrite forallb_rev in H.
    destruct (py_lstrip_head s) as [?|(c & s' & Hs & Hc)]; [done|].
    rewrite Hs in H. simpl in H. by rewrite Hc in H.
  - by intros ->.
Qed.

Lemma py_strip_blank (s : string) : py_strip (code_points s) = [] ↔ blank s = true.
Proof. apply py_strip_blank_code_points. Qed.


Lemma validate_event_id_blank (v : string) :
  validate_event_id v = if blank v then Raise (Exn ValueError "event_id tidak boleh kosong")
                        else Return v.
Proof.
  unfold validate_event_id.
  destruct (blank v) eqn:Hb.
  - apply py_strip_blank in Hb.
    rewrite (bool_decide_eq_true_2 (py_strip (code_points v) = [])) by done.
    by rewrite orb_true_r.
  - rewrite !bool_decide_eq_false_2; [done| |].
    + intros H%py_strip_blank. congruence.
    + intros ->. done.
Qed.

Section EventFacts.

Context (parse_iso : string → option datetime).
Context (topic_ event_id_ timestamp_ source_ : string) (payload_ : gmap string PyAny).

Lemma str_field_blank_event_id :
  blank event_id_ = true →
  ∃ e : exn, str_field (Some 1) None validate_event_id event_id_ = Raise e.
Proof.
  intros Hb. unfold str_field; simpl.
  destruct (len event_id_ <? 1); [eauto|].
  rewrite validate_event_id_blank, Hb. eauto.
Qed.

Lemma str_field_timestamp :
  str_field None None (validate_timestamp parse_iso) timestamp_ =
    validate_timestamp parse_iso timestamp_.
Proof. reflexivity. Qed.

Lemma str_field_Return (lo hi : option Z) (f : string → result string) (v v' : string) :
  str_field lo hi f v = Return v' → f v = Return v'.
Proof.
  unfold str_field.
  destruct (from_option _ _ lo); [done|]. by destruct (from_option _ _ hi).
Qed.

(** C10.  Building an event fails with a validation error when the
    [event_id] is empty or has only whitespace characters, and when the
    library's parser does not accept the timestamp after every ["Z"] in it
    has been replaced by ["+00:00"]; an event that is built has the
    [event_id] it was given. *)
Theorem event_validation :
  (blank event_id_ = true →
   ∃ (err : ValidationError) (msg : string),
     Event_new parse_iso topic_ event_id_ timestamp_ source_ payload_ = inl err ∧
     ("event_id", msg) ∈ errors err) ∧
  (parse_iso (str_replace "Z" "+00:00" timestamp_) = None →
   ∃ err : ValidationError,
     Event_new parse_iso topic_ event_id_ timestamp_ source_ payload_ = inl err ∧
     ("timestamp", "Timestamp harus dalam format ISO8601") ∈ errors err) ∧
  (∀ event : Event,
     Event_new parse_iso topic_ event_id_ timestamp_ source_ payload_ = inr event →
     event_id event = event_id_).
Proof.
  unfold Event_new. split_and!.
  - intros [e He]%str_field_blank_event_id. rewrite He.
    destruct (str_field (Some 1) (Some 255) Return topic_);
      (eexists _, _; split; [reflexivity|]); simpl; repeat constructor.
  - intros Hts. rewrite str_field_timestamp. unfold validate_timestamp. rewrite Hts.
    destruct (str_field (Some 1) (Some 255) Return topic_),
      (str_field (Some 1) None validate_event_id event_id_);
      (eexists; split; [reflexivity|]); simpl; repeat constructor.
  - intros event.
    destruct (str_field (Some 1) (Some 255) Return topic_) eqn:H1; [|done].
    destruct (str_field (Some 1) None validate_event_id event_id_) eqn:H2; [|done].
    destruct (str_field None None (validate_timestamp parse_iso) timestamp_); [|done].
    destruct (str_field (Some 1) None Return source_); [|done].
    intros [= <-]; simpl.
    apply str_field_Return in H2. rewrite validate_event_id_blank in H2.
    destruct (blank event_id_); congruence.
Qed.

End EventFacts.

(** C10 has the validator replace a final ["Z"] only and reject what is
    not ISO-8601, as its docstring and its message say.  This timestamp
    has its ["Z"] before the end and the parser rejects it, as it is and
    with a final ["Z"] replaced; the validator replaces every ["Z"],
    which gives ["2024-01-01T12:00:00+00:00:30"], a time with an offset of
    thirty seconds, and the event is built. *)
Lemma trailing_Z_counterexample :
  fromisoformat "2024-01-01T12:00:00Z:30" = None ∧
  fromisoformat (replace_trailing "Z" "+00:00" "2024-01-01T12:00:00Z:30") = None ∧
  Event_new fromisoformat "user.login" "evt_1" "2024-01-01T12:00:00Z:30" "auth-service" ∅ =
    inr (mkEvent "user.login" "evt_1" "2024-01-01T12:00:00Z:30" "auth-service" ∅).
Proof. split_and!; vm_compute; reflexivity. Qed.


(** ** The statements on the small instance *)

Lemma same_key_processed_once_witness :
  received demo_end = Some 3 ∧
  unique_processed demo_end = Some 1 ∧
  duplicate_dropped demo_end = Some 2.
Proof.
  apply (same_key_processed_once demo_cfg demo_world demo_start "user.login" "evt_1"
           demo_sched demo_end).
  - vm_compute; reflexivity.
  - intros rows H. vm_compute in H. discriminate.
  - repeat constructor.
  - vm_compute; reflexivity.
  - vm_compute; reflexivity.
  - vm_compute. repeat constructor.
  - vm_compute. discriminate.
Defined.


Lemma mark_fault_counted_as_duplicate_witness :
  ∃ s' : System,
    exec (Work 0 (Faults locked)) demo_marking = Some s' ∧
    received s' = Some 1 ∧
    unique_processed s' = Some 0 ∧
    duplicate_dropped s' = Some 1 ∧
    store (database (processor s')) (world s') = Some [] ∧
    workers s' = [Idle; Idle] ∧
    items (event_queue s') = [].
Proof.
  apply (mark_fault_counted_as_duplicate demo_marking
           (mkView 1 0 0 [] 2 [] [Marking demo_event; Idle] []) 0 demo_event locked);
    vm_compute; reflexivity.
Defined.

Lemma mark_processed_is_insert_if_absent_witness :
  store demo_db demo_store = Some [] ∧
  ∃ (b : bool) (w' : World) (rows' : list (string * string)),
    mark_processed demo_db "user.login" "evt_1" Completes demo_store = (Return b, w') ∧
    (b = true ↔ ("user.login", "evt_1") ∉ []) ∧
    store demo_db w' = Some rows' ∧
    ("user.login", "evt_1") ∈ rows' ∧
    (b = true → rows' = [] ++ [("user.login", "evt_1")]) ∧
    (b = false → disk w' = disk demo_store) ∧
    heap w' = heap demo_store.
Proof.
  split; [vm_compute; reflexivity|].
  apply (mark_processed_is_insert_if_absent demo_db "user.login" "evt_1" demo_store []).
  vm_compute; reflexivity.
Defined.

Lemma mark_survives_reopen_witness :
  ∃ (reopened : Database) (w2 : World),
    Database_new (db_path demo_db) Completes
      (restart (mark_processed demo_db "user.login" "evt_1" Completes demo_store).2) =
      (Return reopened, w2) ∧
    (is_processed reopened "user.login" "evt_1" Completes w2).1 = Return true ∧
    (mark_processed reopened "user.login" "evt_1" Completes w2).1 = Return false.
Proof.
  apply (mark_survives_reopen demo_db "user.login" "evt_1" demo_store).
  vm_compute; reflexivity.
Defined.

Lemma dedup_scoped_per_topic_witness :
  ∃ w1 w2 : World,
    mark_processed demo_db "topic.one" "same_id" Completes demo_store = (Return true, w1) ∧
    mark_processed demo_db "topic.two" "same_id" Completes w1 = (Return true, w2) ∧
    store demo_db w2 = Some ([] ++ [("topic.one", "same_id"); ("topic.two", "same_id")]).
Proof.
  apply (dedup_scoped_per_topic demo_db "topic.one" "topic.two" "same_id" demo_store []).
  - discriminate.
  - vm_compute; reflexivity.
  - apply not_elem_of_nil.
  - apply not_elem_of_nil.
Defined.

Lemma publish_on_full_queue_suspends_witness :
  full (event_queue demo_full) = true ∧
  publish_event demo_event (event_queue demo_full) (world demo_full) =
    Suspends (event_queue demo_full) (world demo_full) ∧
  publish_batch [demo_event; demo_event] (event_queue demo_full) (world demo_full) =
    Suspends (event_queue demo_full) (world demo_full) ∧
  exec (Publish demo_event) demo_full =
    Some (mkSystem (world demo_full) (event_queue demo_full) (processor demo_full)
            (workers demo_full) (putters demo_full ++ [demo_event])).
Proof.
  split; [vm_compute; reflexivity|].
  apply (publish_on_full_queue_suspends demo_event [demo_event] demo_full).
  vm_compute; reflexivity.
Defined.

Lemma get_stats_copies_and_counters_grow_witness :
  ∃ (r u d : Z) (snapshot : nat) (w1 : World) (m : gmap string Z),
    (received demo_end = Some r ∧ unique_processed demo_end = Some u ∧
     duplicate_dropped demo_end = Some d) ∧
    (0 ≤ r ∧ 0 ≤ u ∧ 0 ≤ d) ∧
    get_stats (processor demo_end) (world demo_end) = (Return snapshot, w1) ∧
    snapshot ≠ stats (processor demo_end) ∧
    heap w1 !! snapshot = Some m ∧
    (m !! "received" = Some r ∧ m !! "unique_processed" = Some u ∧
     m !! "duplicate_dropped" = Some d) ∧
    (∀ (later : list action) (s' : System),
       run later (mkSystem w1 (event_queue demo_end) (processor demo_end)
                    (workers demo_end) (putters demo_end)) = Some s' →
       heap (world s') !! snapshot = Some m) ∧
    (∀ (a : action) (s' : System),
       exec a demo_end = Some s' →
       ∃ r' u' d' : Z,
         received s' = Some r' ∧ unique_processed s' = Some u' ∧
         duplicate_dropped s' = Some d' ∧ r ≤ r' ∧ u ≤ u' ∧ d ≤ d').
Proof.
  apply (get_stats_copies_and_counters_grow demo_cfg demo_world demo_start demo_sched demo_end);
    vm_compute; reflexivity.
Defined.

Lemma event_validation_witness :
  (∃ (err : ValidationError) (msg : string),
     Event_new fromisoformat "user.login" (utf8 [8195; 32]) "yesterday" "auth-service" ∅ =
       inl err ∧
     ("event_id", msg) ∈ errors err) ∧
  (∃ err : ValidationError,
     Event_new fromisoformat "user.login" (utf8 [8195; 32]) "yesterday" "auth-service" ∅ =
       inl err ∧
     ("timestamp", "Timestamp harus dalam format ISO8601") ∈ errors err) ∧
  event_id demo_event = "evt_1".
Proof.
  split_and!.
  - apply (event_validation fromisoformat "user.login" (utf8 [8195; 32]) "yesterday"
             "auth-service" ∅).
    vm_compute; reflexivity.
  - apply (event_validation fromisoformat "user.login" (utf8 [8195; 32]) "yesterday"
             "auth-service" ∅).
    vm_compute; reflexivity.
  - apply (event_validation fromisoformat "user.login" "evt_1" "2024-05-01T10:20:30Z"
             "auth-service" ∅).
    vm_compute; reflexivity.
Defined.

(** * Further properties *)

(** ** More about the store *)

Section MoreStoreFacts.

Context (self : Database).

Lemma get_count_completes (w : World) (rows : list (string * string)) :
  store self w = Some rows →
  get_count self Completes w = (Return (Z.of_nat (length rows)), w).
Proof.
  unfold store, get_count, sqlite_select_count, mbind, Py_bind. by intros ->.
Qed.

Lemma get_all_topics_completes (w : World) (rows : list (string * string)) :
  store self w = Some rows →
  get_all_topics self Completes w = (Return (list_to_set (remove_dups (rows.*1))), w).
Proof.
  unfold store, get_all_topics, sqlite_select_distinct_topic, mbind, Py_bind. by intros ->.
Qed.

Lemma clear_completes (w : World) (rows : list (string * string)) :
  store self w = Some rows →
  clear self Completes w =
    (Return tt, add_log (LogRecord INFO "Database cleared")
                  (set_disk (insert (db_path self) []) w)).
Proof.
  unfold store, clear, sqlite_delete_all, mbind, Py_bind. by intros ->.
Qed.

(** what a call can do to the rows of the store *)
Lemma store_call_rows (c : store_call) (w : World) :
  store self (store_call_run self c w) = store self w ∨
  store self (store_call_run self c w) = Some [] ∨
  ∃ (rows : list (string * string)) (key : string * string),
    store self w = Some rows ∧ (key ∉ rows) ∧
    store self (store_call_run self c w) = Some (rows ++ [key]).
Proof.
  destruct c as [t e io|t e io|io|io|io|io]; simpl.
  - destruct io as [|ex]; [|left; reflexivity].
    destruct (store self w) as [rows|] eqn:Hs.
    + destruct (decide ((t, e) ∈ rows)) as [Hin|Hnotin].
      * left. by rewrite (mark_processed_known _ _ _ _ rows).
      * right; right. exists rows, (t, e).
        rewrite (mark_processed_new _ _ _ _ rows) by done.
        split_and!; try done. unfold store; simpl. by rewrite lookup_insert_eq.
    + left. by rewrite mark_processed_no_table.
  - left. destruct io as [|ex]; [|done].
    destruct (store self w) as [rows|] eqn:Hs.
    + by rewrite (is_processed_completes _ _ _ _ rows).
    + by rewrite is_processed_no_table.
  - left. destruct io as [|ex]; [|done].
    unfold get_all_topics, sqlite_select_distinct_topic, mbind, Py_bind, store.
    destruct (disk w !! db_path self) eqn:Hs; simpl; by rewrite ?Hs.
  - left. destruct io as [|ex]; [|done].
    unfold get_count, sqlite_select_count, mbind, Py_bind, store.
    destruct (disk w !! db_path self) eqn:Hs; simpl; by rewrite ?Hs.
  - destruct io as [|ex]; [|left; reflexivity].
    destruct (store self w) as [rows|] eqn:Hs.
    + right; left. rewrite (clear_completes _ rows) by done.
      unfold store; simpl. by rewrite lookup_insert_eq.
    + left. unfold clear, sqlite_delete_all, mbind, Py_bind.
      unfold store in Hs. by rewrite Hs.
  - destruct io as [|ex]; [|left; reflexivity].
    rewrite Database_new_completes; simpl. unfold store.
    destruct (disk w !! db_path self) as [rows|] eqn:Hs; simpl.
    + left. done.
    + right; left. by rewrite lookup_insert_eq.
Qed.

(** X1.  No sequence of calls on the store (marking, checking, listing the
    topics, counting, clearing, opening it again; each one completed or
    failed by the engine) leaves a pair of topic and event_id twice in the
    table: rows that were without repetition before are without repetition
    afterwards. *)
Theorem store_keeps_pairs_unique (cs : list store_call) (w : World) :
  (∀ rows, store self w = Some rows → NoDup rows) →
  ∀ rows', store self (store_calls self cs w) = Some rows' → NoDup rows'.
Proof.
  unfold store_calls. revert w.
  induction cs as [|c cs IH]; intros w Hw; simpl; [done|].
  apply IH. intros rows' Hrows'.
  destruct (store_call_rows c w) as [Hsame | [Hempty | (rows & key & Hs & Hkey & Hnew)]].
  - apply Hw. congruence.
  - rewrite Hempty in Hrows'. injection Hrows' as <-. constructor.
  - rewrite Hnew in Hrows'. injection Hrows' as <-.
    apply NoDup_app. split_and!.
    + by apply Hw.
    + intros x Hx ->%list_elem_of_singleton. done.
    + apply NoDup_singleton.
Qed.

End MoreStoreFacts.


Lemma success_count_cons (b : bool) (bs : list bool) :
  success_count (b :: bs) = (if b then 1 else 0) + success_count bs.
Proof.
  unfold success_count. destruct b.
  - rewrite filter_cons_True by done. simpl. lia.
  - rewrite filter_cons_False by done. lia.
Qed.

Lemma size_with_new_pair (k : string * string) (ks known : gset (string * string)) :
  k ∉ known →
  size (({[k]} ∪ ks) ∖ known) = S (size (ks ∖ (known ∪ {[k]}))).
Proof.
  intros Hk.
  assert (({[k]} ∪ ks) ∖ known = {[k]} ∪ ks ∖ (known ∪ {[k]})) as ->.
  { apply set_eq. intros x. destruct (decide (x = k)); set_solver. }
  rewrite size_union by set_solver. by rewrite size_singleton.
Qed.

Lemma remove_dups_shorter (l : list string) :
  (length (remove_dups l) ≤ length l)%nat.
Proof.
  induction l as [|x l IH]; simpl; [done|].
  destruct (decide_rel elem_of x l); simpl; lia.
Qed.

Section StoreCalls.

Context (self : Database).

(** X2.  Marking a list of pairs, as [asyncio.gather] over [mark_processed]
    does in the tests: every call returns; the number of [True] results is
    the number of distinct pairs of the list that the store did not have;
    the store afterwards has the pairs it had and those of the list, and
    [get_count] reports the count before plus the number of successes. *)
Theorem gather_marks_one_success_per_new_pair
    (keys : list (string * string)) (w : World) (rows : list (string * string)) :
  store self w = Some rows →
  ∃ (results : list bool) (w' : World) (rows' : list (string * string)),
    gather_mark_processed self keys w = (Return results, w') ∧
    length results = length keys ∧
    success_count results =
      Z.of_nat (size (list_to_set keys ∖ list_to_set rows : gset (string * string))) ∧
    store self w' = Some rows' ∧
    (list_to_set rows' : gset (string * string)) = list_to_set rows ∪ list_to_set keys ∧
    get_count self Completes w' =
      (Return (Z.of_nat (length rows) + success_count results), w').
Proof.
  revert w rows. induction keys as [|[t e] keys IH]; intros w rows Hs; simpl.
  - exists [], w, rows. split_and!; try done.
    + assert (size (∅ ∖ list_to_set rows : gset (string * string)) = 0%nat)
        as -> by (apply size_empty_iff; set_solver).
      done.
    + set_solver.
    + rewrite (get_count_completes _ _ rows Hs). unfold success_count; simpl.
      by rewrite Z.add_0_r.
  - unfold mbind, Py_bind.
    destruct (decide ((t, e) ∈ rows)) as [Hin | Hnotin].
    + rewrite (mark_processed_known _ _ _ _ rows) by done.
      destruct (IH (add_log (LogRecord WARNING ("Duplicate detected: topic=" +:+ t +:+
                                                ", event_id=" +:+ e)) w) rows Hs)
        as (results & w' & rows' & -> & Hlen & Hcount & Hs' & Hset & Hget).
      exists (false :: results), w', rows'. rewrite success_count_cons.
      split_and!; try done.
      * simpl. by rewrite Hlen.
      * rewrite Hcount, Z.add_0_l. do 2 f_equal. set_solver.
      * set_solver.
    + rewrite (mark_processed_new _ _ _ _ rows) by done.
      set (w1 := add_log _ _).
      assert (Hs1 : store self w1 = Some (rows ++ [(t, e)])).
      { unfold store; simpl. by rewrite lookup_insert_eq. }
      destruct (IH w1 _ Hs1) as (results & w' & rows' & -> & Hlen & Hcount & Hs' & Hset & Hget).
      exists (true :: results), w', rows'. rewrite success_count_cons.
      rewrite list_to_set_app_L in Hset, Hcount. simpl in Hset, Hcount.
      split_and!; try done.
      * simpl. by rewrite Hlen.
      * rewrite Hcount, (size_with_new_pair (t, e)).
        -- replace (list_to_set rows ∪ ({[(t, e)]} ∪ ∅) : gset (string * string))
             with (list_to_set rows ∪ {[(t, e)]} : gset (string * string)) by set_solver.
           lia.
        -- by rewrite elem_of_list_to_set.
      * rewrite Hset. set_solver.
      * rewrite Hget, length_app. simpl. do 2 f_equal. lia.
Qed.

(** X3.  Marking a pair again.  After a [mark_processed] that the engine
    completed, [is_processed] finds the pair, a second [mark_processed] of
    the pair returns [False] and leaves the files as they are, and the
    count has grown by one exactly when the first call returned [True].
    After a [mark_processed] that the engine failed, which returns [False]
    as well, nothing was stored: the pair is found only if it was there
    before, and the second call returns [True] when it was not. *)
Theorem mark_processed_again
    (topic_ event_id_ : string) (io : sqlite_io) (w : World)
    (rows : list (string * string)) :
  store self w = Some rows →
  ∃ (first found second : bool) (w1 w2 : World),
    mark_processed self topic_ event_id_ io w = (Return first, w1) ∧
    is_processed self topic_ event_id_ Completes w1 = (Return found, w1) ∧
    mark_processed self topic_ event_id_ Completes w1 = (Return second, w2) ∧
    match io with
    | Completes =>
        found = true ∧ second = false ∧ disk w2 = disk w1 ∧
        get_count self Completes w2 =
          (Return (Z.of_nat (length rows) + (if first then 1 else 0)), w2)
    | Faults _ =>
        first = false ∧ disk w1 = disk w ∧
        found = bool_decide ((topic_, event_id_) ∈ rows) ∧ second = negb found
    end.
Proof.
  intros Hs. destruct io as [|e].
  - destruct (decide ((topic_, event_id_) ∈ rows)) as [Hin | Hnotin].
    + eexists false, true, false, _, _.
      split; [by apply (mark_processed_known _ _ _ _ rows)|].
      set (w1 := add_log _ w).
      assert (Hs1 : store self w1 = Some rows) by done.
      rewrite (is_processed_completes _ _ _ _ _ Hs1).
      rewrite bool_decide_eq_true_2 by done.
      rewrite (mark_processed_known _ _ _ _ _ Hs1 Hin).
      split_and!; try done.
      rewrite (get_count_completes _ _ rows) by done. by rewrite Z.add_0_r.
    + eexists true, true, false, _, _.
      split; [by apply (mark_processed_new _ _ _ _ rows)|].
      set (w1 := add_log _ _).
      assert (Hs1 : store self w1 = Some (rows ++ [(topic_, event_id_)])).
      { unfold store; simpl. by rewrite lookup_insert_eq. }
      assert (Hin : (topic_, event_id_) ∈ rows ++ [(topic_, event_id_)]).
      { rewrite elem_of_app, list_elem_of_singleton. by right. }
      rewrite (is_processed_completes _ _ _ _ _ Hs1).
      rewrite bool_decide_eq_true_2 by done.
      rewrite (mark_processed_known _ _ _ _ _ Hs1 Hin).
      split_and!; try done.
      rewrite (get_count_completes _ _ (rows ++ [(topic_, event_id_)])) by done.
      rewrite length_app; simpl. do 2 f_equal. lia.
  - rewrite mark_processed_faults.
    set (w1 := add_log _ w).
    assert (Hs1 : store self w1 = Some rows) by done.
    destruct (decide ((topic_, event_id_) ∈ rows)) as [Hin | Hnotin].
    + eexists false, true, false, _, _. split; [done|].
      rewrite (is_processed_completes _ _ _ _ _ Hs1), bool_decide_eq_true_2 by done.
      rewrite (mark_processed_known _ _ _ _ _ Hs1 Hin). done.
    + eexists false, false, true, _, _. split; [done|].
      rewrite (is_processed_completes _ _ _ _ _ Hs1), bool_decide_eq_false_2 by done.
      rewrite (mark_processed_new _ _ _ _ _ Hs1 Hnotin). done.
Qed.

(** X4.  After [clear] the store is empty: [get_count] gives 0,
    [get_all_topics] the empty set, [is_processed] finds no pair and every
    pair is marked as new again.  The objects in memory, the counters among
    them, are not touched. *)
Theorem clear_forgets_every_pair (w : World) (rows : list (string * string)) :
  store self w = Some rows →
  ∃ w' : World,
    clear self Completes w = (Return tt, w') ∧
    get_count self Completes w' = (Return 0, w') ∧
    get_all_topics self Completes w' = (Return ∅, w') ∧
    heap w' = heap w ∧
    ∀ topic_ event_id_ : string,
      is_processed self topic_ event_id_ Completes w' = (Return false, w') ∧
      (mark_processed self topic_ event_id_ Completes w').1 = Return true.
Proof.
  intros Hs. eexists. split; [by apply (clear_completes _ _ rows)|].
  set (w' := add_log _ _).
  assert (Hs' : store self w' = Some []).
  { unfold store; simpl. by rewrite lookup_insert_eq. }
  rewrite (get_count_completes _ _ [] Hs'), (get_all_topics_completes _ _ [] Hs').
  split_and!; try done.
  intros t e. rewrite (is_processed_completes _ _ _ _ [] Hs').
  rewrite (mark_processed_new _ _ _ _ [] Hs') by apply not_elem_of_nil.
  by rewrite bool_decide_eq_false_2 by apply not_elem_of_nil.
Qed.

(** X5.  [get_all_topics] returns the topics under which [is_processed]
    finds some event, no others, and never more topics than the table has
    rows. *)
Theorem topics_are_those_with_a_processed_event
    (w : World) (rows : list (string * string)) :
  store self w = Some rows →
  ∃ topics : gset string,
    get_all_topics self Completes w = (Return topics, w) ∧
    (∀ topic_ : string,
       topic_ ∈ topics ↔
       ∃ event_id_ : string,
         is_processed self topic_ event_id_ Completes w = (Return true, w)) ∧
    (size topics ≤ length rows)%nat.
Proof.
  intros Hs. eexists. rewrite (get_all_topics_completes _ _ rows Hs).
  split; [done|]. split.
  - intros t. rewrite elem_of_list_to_set, elem_of_remove_dups, list_elem_of_fmap.
    split.
    + intros ([t' e] & -> & Hin). exists e; simpl.
      rewrite (is_processed_completes _ _ _ _ rows Hs).
      by rewrite bool_decide_eq_true_2.
    + intros [e He]. rewrite (is_processed_completes _ _ _ _ rows Hs) in He.
      injection He as He. apply bool_decide_eq_true_1 in He. by exists (t, e).
  - rewrite size_list_to_set by apply NoDup_remove_dups.
    etrans; [apply remove_dups_shorter|]. by rewrite length_fmap.
Qed.

(** X6.  On a file without the table, [is_processed], [get_count],
    [get_all_topics] and [clear] raise the engine's error and change
    nothing, whereas [mark_processed] swallows the error, returns [False]
    and stores nothing.  Opening the store again with [Database(...)]
    creates the table, empty. *)
Theorem store_without_table (topic_ event_id_ : string) (w : World) :
  store self w = None →
  is_processed self topic_ event_id_ Completes w = (Raise no_such_table, w) ∧
  get_count self Completes w = (Raise no_such_table, w) ∧
  get_all_topics self Completes w = (Raise no_such_table, w) ∧
  clear self Completes w = (Raise no_such_table, w) ∧
  (∃ w' : World,
     mark_processed self topic_ event_id_ Completes w = (Return false, w') ∧
     disk w' = disk w ∧ heap w' = heap w) ∧
  (∃ w' : World,
     Database_new (db_path self) Completes w = (Return self, w') ∧
     store self w' = Some []).
Proof.
  intros Hs. split_and!.
  - by apply is_processed_no_table.
  - unfold store in Hs.
    unfold get_count, sqlite_select_count, mbind, Py_bind. by rewrite Hs.
  - unfold store in Hs.
    unfold get_all_topics, sqlite_select_distinct_topic, mbind, Py_bind. by rewrite Hs.
  - unfold store in Hs.
    unfold clear, sqlite_delete_all, mbind, Py_bind. by rewrite Hs.
  - eexists. by rewrite mark_processed_no_table.
  - eexists. rewrite Database_new_completes. unfold store in *. rewrite Hs.
    split; [by destruct self|]. simpl. by rewrite lookup_insert_eq.
Qed.

End StoreCalls.

(** ** More about runs *)

Lemma no_room_false (m : Z) (q : list Event) :
  no_room m q = false ↔ m ≤ 0 ∨ Z.of_nat (length q) < m.
Proof.
  unfold no_room. destruct (Z.leb_spec m 0); [intuition lia|].
  rewrite Z.leb_gt. lia.
Qed.

Lemma no_room_true (m : Z) (q : list Event) :
  no_room m q = true ↔ 0 < m ∧ m ≤ Z.of_nat (length q).
Proof.
  unfold no_room. destruct (Z.leb_spec m 0); [intuition lia|].
  rewrite Z.leb_le. lia.
Qed.

Lemma vstep_within_capacity (a : action) (v v' : view) :
  vstep a v v' → within_capacity v → within_capacity v'.
Proof.
  unfold within_capacity.
  destruct 1 as [? ? ? ? ? ? ? ? ? Hroom|? ? ? ? ? ? ? ? ? Hroom
                |? ? ? ? ? ? ? ? ? ? Hn Hroom|? ? ? ? ? ? ? ? ? ? Hn Hroom
                | | | | | | | |]; simpl; intros [Hcap Hput]; try done.
  - apply no_room_false in Hroom. split; [|done].
    intros Hm. rewrite length_app; simpl. lia.
  - apply no_room_true in Hroom. split; [done|]. lia.
  - apply no_room_false in Hroom. split.
    + intros Hm. rewrite length_app; simpl. lia.
    + intros Hm. rewrite Hput in Hn by done. done.
  - split; [|done]. intros Hm. specialize (Hcap Hm). simpl in Hcap. lia.
Qed.

Lemma vrun_within_capacity (sched : list action) (v v' : view) :
  vrun sched v v' → within_capacity v → within_capacity v'.
Proof.
  induction 1 as [|a sched v1 v2 v3 Hstep _ IH]; [done|].
  intros Hv. apply IH. by eapply vstep_within_capacity.
Qed.

Lemma vstep_maxsize (a : action) (v v' : view) :
  vstep a v v' → v_maxsize v' = v_maxsize v.
Proof. by destruct 1. Qed.

Lemma vrun_maxsize (sched : list action) (v v' : view) :
  vrun sched v v' → v_maxsize v' = v_maxsize v.
Proof.
  induction 1 as [|a sched v1 v2 v3 Hstep _ IH]; [done|].
  rewrite IH. by eapply vstep_maxsize.
Qed.

(** The rows only grow, by pairs that were not there, one for each
    increment of [unique_processed]; this needs no assumption on the engine. *)
Lemma vstep_rows_grow (a : action) (v v' : view) :
  vstep a v v' →
  ∃ added : list (string * string),
    v_rows v' = v_rows v ++ added ∧
    v_unique v' = v_unique v + Z.of_nat (length added) ∧
    (NoDup (v_rows v) → NoDup (v_rows v')).
Proof.
  destruct 1; simpl;
    try (exists []; rewrite app_nil_r; simpl; split_and!; [done|lia|done]).
  exists [key_of event]. simpl. split_and!; [done|lia|].
  intros Hnd. apply NoDup_app. split_and!; [done| |apply NoDup_singleton].
  by intros x Hx ->%list_elem_of_singleton.
Qed.

Lemma vrun_rows_grow (sched : list action) (v v' : view) :
  vrun sched v v' →
  ∃ added : list (string * string),
    v_rows v' = v_rows v ++ added ∧
    v_unique v' = v_unique v + Z.of_nat (length added) ∧
    (NoDup (v_rows v) → NoDup (v_rows v')).
Proof.
  induction 1 as [v|a sched v1 v2 v3 Hstep _ IH].
  - exists []. rewrite app_nil_r. simpl. split_and!; [done|lia|done].
  - destruct (vstep_rows_grow _ _ _ Hstep) as (add1 & Hr1 & Hu1 & Hn1).
    destruct IH as (add2 & Hr2 & Hu2 & Hn2).
    exists (add1 ++ add2). split_and!.
    + by rewrite Hr2, Hr1, app_assoc.
    + rewrite Hu2, Hu1, length_app. lia.
    + auto.
Qed.


Lemma elem_of_delete_or {A : Type} (l : list A) (n : nat) (x y : A) :
  x ∈ l → l !! n = Some y → x ∈ delete n l ∨ x = y.
Proof.
  revert n. induction l as [|z l IH]; intros n Hx Hn; [by apply elem_of_nil in Hx|].
  destruct n as [|n]; simpl in *.
  - injection Hn as ->. apply elem_of_cons in Hx as [->|Hx]; auto.
  - apply elem_of_cons in Hx as [->|Hx]; [left; by left|].
    destruct (IH n Hx Hn) as [?|?]; [left; by right|by right].
Qed.

Lemma elem_of_delete_in {A : Type} (l : list A) (n : nat) (x : A) :
  x ∈ delete n l → x ∈ l.
Proof.
  revert n. induction l as [|z l IH]; intros [|n] Hx; simpl in *; try done.
  - by right.
  - apply elem_of_cons in Hx as [->|Hx]; [by left|right; eauto].
Qed.

Lemma held_after_insert (ws : list worker_state) (i : nat) (new : worker_state)
    (event : Event) :
  (∃ st, st ∈ <[i := new]> ws ∧ held st = Some event) →
  held new = Some event ∨ ∃ st, st ∈ ws ∧ held st = Some event.
Proof.
  intros (st & Hst & Hheld).
  apply list_elem_of_lookup in Hst as [j Hj].
  destruct (decide (i = j)) as [<-|Hne].
  - destruct (decide (i < length ws)%nat) as [Hlt|Hge].
    + rewrite list_lookup_insert_eq in Hj by done. injection Hj as <-. by left.
    + rewrite list_insert_ge in Hj by lia. right. exists st.
      split; [|done]. by eapply list_elem_of_lookup_2.
  - rewrite list_lookup_insert_ne in Hj by done. right. exists st.
    split; [|done]. by eapply list_elem_of_lookup_2.
Qed.

Lemma held_before_insert (ws : list worker_state) (i : nat) (old new : worker_state)
    (event : Event) :
  ws !! i = Some old →
  (∃ st, st ∈ ws ∧ held st = Some event) →
  held old = Some event ∨ ∃ st, st ∈ <[i := new]> ws ∧ held st = Some event.
Proof.
  intros Hi (st & Hst & Hheld).
  apply list_elem_of_lookup in Hst as [j Hj].
  destruct (decide (i = j)) as [<-|Hne].
  - left. congruence.
  - right. exists st. split; [|done].
    apply list_elem_of_lookup. exists j. by rewrite list_lookup_insert_ne.
Qed.

Lemma held_at_insert (ws : list worker_state) (i : nat) (old new : worker_state)
    (event : Event) :
  ws !! i = Some old → held new = Some event →
  ∃ st, st ∈ <[i := new]> ws ∧ held st = Some event.
Proof.
  intros Hi Hnew. exists new. split; [|done].
  apply list_elem_of_lookup. exists i.
  apply list_lookup_insert_eq. by eapply lookup_lt_Some.
Qed.

Lemma held_at (ws : list worker_state) (i : nat) (st : worker_state) (event : Event) :
  ws !! i = Some st → held st = Some event →
  ∃ st, st ∈ ws ∧ held st = Some event.
Proof. intros Hi Hheld. exists st. split; [|done]. by eapply list_elem_of_lookup_2. Qed.

Lemma vstep_accounted (rows0 : list (string * string)) (pub : list Event)
    (a : action) (v v' : view) :
  vstep a v v' →
  (∀ i e, a ≠ Work i (Faults e)) →
  accounted rows0 pub v →
  accounted rows0 (pub ++ published [a]) v'.
Proof.
  intros Hstep Hok (Hin & Hout & Hrows).
  unfold accounted, in_flight in *.
  destruct Hstep as [ev ? ? ? ? ? q ws ps Hroom|ev ? ? ? ? ? q ws ps Hroom
                    |n ev ? ? ? ? ? q ws ps Hn Hroom|n ev ? ? ? ? ? q ws ps Hn Hroom
                    |i io ? ? ? ? ? ws ps Hi|i io ev ? ? ? ? ? q ws ps Hi
                    |i ev ? ? ? rows ? q ws ps Hi Hkey|i ev ? ? ? rows ? q ws ps Hi Hkey
                    |i e ev ? ? ? rows ? q ws ps Hi
                    |i ev ? ? ? rows ? q ws ps Hi Hkey|i ev ? ? ? rows ? q ws ps Hi Hkey
                    |i e ev ? ? ? rows ? q ws ps Hi];
    simpl in *; rewrite ?app_nil_r; try (exfalso; by eapply Hok).
  - (* publish *)
    split_and!.
    + intros x [Hx| ->%list_elem_of_singleton]%elem_of_app.
      * destruct (Hin x Hx) as [[?|[?|?]]|?]; auto.
        left; left. apply elem_of_app; auto.
      * left; left. apply elem_of_app. right. by apply list_elem_of_singleton.
    + intros x [[Hx| ->%list_elem_of_singleton]%elem_of_app|Hx]; apply elem_of_app; auto.
      right. by apply list_elem_of_singleton.
    + intros k Hk. destruct (Hrows k Hk) as [?|(x & ? & ?)]; auto.
      right. exists x. split; [apply elem_of_app|]; auto.
  - (* publish, suspended *)
    split_and!.
    + intros x [Hx| ->%list_elem_of_singleton]%elem_of_app.
      * destruct (Hin x Hx) as [[?|[?|?]]|?]; auto.
        left; right; left. apply elem_of_app; auto.
      * left; right; left. apply elem_of_app. right. by apply list_elem_of_singleton.
    + intros x [Hx|[[Hx| ->%list_elem_of_singleton]%elem_of_app|Hx]]; apply elem_of_app; auto.
      right. by apply list_elem_of_singleton.
    + intros k Hk. destruct (Hrows k Hk) as [?|(x & ? & ?)]; auto.
      right. exists x. split; [apply elem_of_app|]; auto.
  - (* resume *)
    split_and!; [| |done].
    + intros x Hx. destruct (Hin x Hx) as [[?|[Hp|?]]|?]; auto.
      * left; left. apply elem_of_app; auto.
      * destruct (elem_of_delete_or _ _ _ _ Hp Hn) as [?| ->]; auto.
        left; left. apply elem_of_app. right. by apply list_elem_of_singleton.
    + intros x [[Hx| ->%list_elem_of_singleton]%elem_of_app|[Hx|Hx]]; apply Hout; auto.
      * right; left. by eapply list_elem_of_lookup_2.
      * right; left. by eapply elem_of_delete_in.
  - done.
  - done.
  - (* dequeue *)
    split_and!; [| |done].
    + intros x Hx. destruct (Hin x Hx) as [[[->|?]%elem_of_cons|[?|Hw]]|?]; auto.
      * left; right; right. by eapply held_at_insert.
      * destruct (held_before_insert _ _ _ (Checking ev) _ Hi Hw) as [?|?]; [done|auto].
    + intros x [Hx|[Hx|Hw]]; apply Hout; auto.
      * left. by right.
      * destruct (held_after_insert _ _ _ _ Hw) as [[= <-]|?]; auto. left. by left.
  - (* check: duplicate *)
    split_and!; [| |done].
    + intros x Hx. destruct (Hin x Hx) as [[?|[?|Hw]]|?]; auto.
      destruct (held_before_insert _ _ _ Idle _ Hi Hw) as [[= <-]|?]; auto.
    + intros x [Hx|[Hx|Hw]]; apply Hout; auto.
      destruct (held_after_insert _ _ _ _ Hw) as [?|?]; [done|auto].
  - (* check: new *)
    split_and!; [| |done].
    + intros x Hx. destruct (Hin x Hx) as [[?|[?|Hw]]|?]; auto.
      destruct (held_before_insert _ _ _ (Marking ev) _ Hi Hw) as [[= <-]|?]; auto.
      left; right; right. by eapply held_at_insert.
    + intros x [Hx|[Hx|Hw]]; apply Hout; auto.
      destruct (held_after_insert _ _ _ _ Hw) as [[= <-]|?]; auto.
      right; right. by eapply held_at.
  - (* mark: new *)
    split_and!.
    + intros x Hx. destruct (Hin x Hx) as [[?|[?|Hw]]|?]; auto.
      * destruct (held_before_insert _ _ _ Idle _ Hi Hw) as [[= <-]|?]; auto.
        right. apply elem_of_app. right. by apply list_elem_of_singleton.
      * right. apply elem_of_app. by left.
    + intros x [Hx|[Hx|Hw]]; apply Hout; auto.
      destruct (held_after_insert _ _ _ _ Hw) as [?|?]; [done|auto].
    + intros k [Hk| ->%list_elem_of_singleton]%elem_of_app; [auto|].
      right. exists ev. split; [|done]. apply Hout. right; right. by eapply held_at.
  - (* mark: lost the race *)
    split_and!; [| |done].
    + intros x Hx. destruct (Hin x Hx) as [[?|[?|Hw]]|?]; auto.
      destruct (held_before_insert _ _ _ Idle _ Hi Hw) as [[= <-]|?]; auto.
    + intros x [Hx|[Hx|Hw]]; apply Hout; auto.
      destruct (held_after_insert _ _ _ _ Hw) as [?|?]; [done|auto].
Qed.

Lemma published_app (s1 s2 : list action) :
  published (s1 ++ s2) = published s1 ++ published s2.
Proof. unfold published. apply omap_app. Qed.

Lemma vrun_accounted (rows0 : list (string * string)) (pub : list Event)
    (sched : list action) (v v' : view) :
  vrun sched v v' →
  fault_free sched = true →
  accounted rows0 pub v →
  accounted rows0 (pub ++ published sched) v'.
Proof.
  intros Hrun. revert pub.
  induction Hrun as [|a sched v1 v2 v3 Hstep _ IH]; intros pub Hff Hinv.
  - by rewrite app_nil_r.
  - apply fault_free_cons in Hff as [Ha Hff].
    change (a :: sched) with ([a] ++ sched). rewrite published_app, app_assoc.
    apply IH; [done|]. exact (vstep_accounted rows0 pub a v1 v2 Hstep Ha Hinv).
Qed.


(** Every published event is counted in [received], queued, or waiting with
    its handler. *)
Lemma vstep_admitted (a : action) (v v' : view) :
  vstep a v v' →
  v_received v' + Z.of_nat (length (v_queue v')) + Z.of_nat (length (v_putters v')) =
  v_received v + Z.of_nat (length (v_queue v)) + Z.of_nat (length (v_putters v)) +
  Z.of_nat (length (published [a])).
Proof.
  destruct 1 as [| |n ev ? ? ? ? ? ? ? ps Hn Hroom| | | | | | | | |];
    simpl; rewrite ?length_app; simpl; try lia.
  assert (length ps = S (length (delete n ps))); [|lia].
  rewrite length_delete by eauto. apply lookup_lt_Some in Hn. lia.
Qed.

Lemma vrun_admitted (sched : list action) (v v' : view) :
  vrun sched v v' →
  v_received v' + Z.of_nat (length (v_queue v')) + Z.of_nat (length (v_putters v')) =
  v_received v + Z.of_nat (length (v_queue v)) + Z.of_nat (length (v_putters v)) +
  Z.of_nat (length (published sched)).
Proof.
  induction 1 as [|a sched v1 v2 v3 Hstep _ IH]; [simpl; lia|].
  rewrite IH, (vstep_admitted _ _ _ Hstep).
  change (a :: sched) with ([a] ++ sched). rewrite published_app, length_app. lia.
Qed.

(** X7.  In every run of the application, whatever the engine fails, the
    queue keeps the capacity it was created with; a bounded queue never
    holds more events than that, and with an unbounded one (a
    [QUEUE_MAX_SIZE] of zero or less) no publish request is left waiting. *)
Theorem queue_never_over_capacity
    (cfg : Config) (w0 : World) (s0 : System) (sched : list action) (s : System) :
  lifespan cfg Completes w0 = Return s0 →
  run sched s0 = Some s →
  maxsize (event_queue s) = QUEUE_MAX_SIZE cfg ∧
  (0 < QUEUE_MAX_SIZE cfg → qsize (event_queue s) ≤ QUEUE_MAX_SIZE cfg) ∧
  (QUEUE_MAX_SIZE cfg ≤ 0 → putters s = []).
Proof.
  intros Hstart Hrun.
  pose proof (lifespan_view _ _ _ Hstart) as Hv0.
  destruct (run_refines _ _ _ _ Hv0 Hrun) as (_ & _ & v & Hv & Hvrun).
  pose proof (vrun_maxsize _ _ _ Hvrun) as Hmax. simpl in Hmax.
  apply vrun_within_capacity in Hvrun.
  2: { unfold within_capacity; simpl. split; [lia|done]. }
  apply view_of_Some in Hv as (_ & _ & _ & _ & Hm & Hq & _ & Hp).
  destruct Hvrun as [Hcap Hput]. unfold qsize. rewrite Hm, Hq, Hp, <- Hmax. auto.
Qed.


(** X10.  When a run without engine faults has come to rest, the table
    holds the pairs found at start-up and the pairs of the published
    events, each once; [received] is the number of published events,
    [unique_processed] the number of distinct published pairs that were not
    in the table at start-up, and [duplicate_dropped] the rest. *)
Theorem unique_counts_the_new_pairs
    (cfg : Config) (w0 : World) (s0 : System) (sched : list action) (s : System) :
  lifespan cfg Completes w0 = Return s0 →
  NoDup (default [] (disk w0 !! DEDUP_DB_PATH cfg)) →
  fault_free sched = true →
  run sched s0 = Some s →
  quiescent s →
  ∃ (rows : list (string * string)) (new : nat),
    new = size (list_to_set (key_of <$> published sched) ∖
                list_to_set (default [] (disk w0 !! DEDUP_DB_PATH cfg))
                : gset (string * string)) ∧
    store (database (processor s)) (world s) = Some rows ∧
    NoDup rows ∧
    (list_to_set rows : gset (string * string)) =
      list_to_set (default [] (disk w0 !! DEDUP_DB_PATH cfg)) ∪
      list_to_set (key_of <$> published sched) ∧
    received s = Some (Z.of_nat (length (published sched))) ∧
    unique_processed s = Some (Z.of_nat new) ∧
    duplicate_dropped s = Some (Z.of_nat (length (published sched)) - Z.of_nat new).
Proof.
  intros Hstart Hnd0 Hff Hrun (Hq & Hp & Hidle).
  pose proof (lifespan_view _ _ _ Hstart) as Hv0.
  destruct (run_refines _ _ _ _ Hv0 Hrun) as (_ & _ & v & Hv & Hvrun).
  set (rows0 := default [] (disk w0 !! DEDUP_DB_PATH cfg)) in *.
  destruct (vrun_rows_grow _ _ _ Hvrun) as (added & Hrows & Hu & Hnd). simpl in *.
  pose proof (vrun_admitted _ _ _ Hvrun) as Hadm. simpl in Hadm.
  pose proof (vrun_balanced _ _ _ Hvrun Hff) as Hbal.
  unfold balanced in Hbal; simpl in Hbal. rewrite busy_replicate_idle in Hbal.
  specialize (Hbal eq_refl).
  apply (vrun_accounted rows0 []) in Hvrun; [|done|].
  2: { unfold accounted, in_flight; simpl. split_and!.
       - by intros ? ?%elem_of_nil.
       - intros ev [?%elem_of_nil|[?%elem_of_nil|(st & Hst & Hheld)]]; try done.
         apply elem_of_replicate in Hst as [-> _]. done.
       - auto. }
  destruct Hvrun as (Hin & _ & Hfrom). simpl in Hin, Hfrom.
  apply view_of_Some in Hv as (Hr & Hvu & Hd & Hvr & _ & Hvq & Hws & Hvp).
  assert (Hq0 : v_queue v = []) by congruence.
  assert (Hp0 : v_putters v = []) by congruence.
  rewrite <- Hws in Hbal. rewrite Hq0, Hp0 in Hadm.
  rewrite (busy_idle _ Hidle) in Hbal. simpl in Hadm.
  specialize (Hnd Hnd0). rewrite Hrows in Hnd.
  apply NoDup_app in Hnd as (_ & Hdisj & Hnda).
  assert (Hall : ∀ ev, ev ∈ published sched → key_of ev ∈ v_rows v).
  { intros ev Hev. destruct (Hin ev Hev) as [[Hx|[Hx|(st & Hst & Hh)]]|?]; [| | |done].
    - rewrite Hq0 in Hx. by apply elem_of_nil in Hx.
    - rewrite Hp0 in Hx. by apply elem_of_nil in Hx.
    - rewrite <- Hws in Hst. eapply Forall_forall in Hidle; [|exact Hst]. by subst st. }
  assert (Hset : (list_to_set (v_rows v) : gset (string * string)) =
                 list_to_set rows0 ∪ list_to_set (key_of <$> published sched)).
  { apply set_eq. intros k.
    rewrite elem_of_union, !elem_of_list_to_set, list_elem_of_fmap. split.
    - intros Hk. destruct (Hfrom k Hk) as [?|(ev & ? & ?)]; [by left|right; eauto].
    - intros [Hk|(ev & -> & Hev)]; [|by apply Hall].
      rewrite Hrows. apply elem_of_app. by left. }
  assert (Hadded : (list_to_set added : gset (string * string)) =
                   list_to_set (key_of <$> published sched) ∖ list_to_set rows0).
  { apply set_eq. intros k. rewrite elem_of_difference, !elem_of_list_to_set. split.
    - intros Hk. split.
      + assert (k ∈ (list_to_set (v_rows v) : gset (string * string))) as Hkv.
        { rewrite elem_of_list_to_set, Hrows. apply elem_of_app. by right. }
        rewrite Hset, elem_of_union, !elem_of_list_to_set in Hkv.
        destruct Hkv as [Hk0|?]; [|done]. exfalso. by eapply Hdisj.
      + intros Hk0. by eapply Hdisj.
    - intros [Hk Hk0].
      assert (k ∈ (list_to_set (v_rows v) : gset (string * string))) as Hkv.
      { rewrite Hset, elem_of_union, !elem_of_list_to_set. by right. }
      rewrite elem_of_list_to_set, Hrows, elem_of_app in Hkv. by destruct Hkv. }
  exists (v_rows v), (length added).
  rewrite Hr, Hvu, Hd, Hvr. split_and!; try done.
  - by rewrite <- Hadded, size_list_to_set.
  - rewrite Hrows. apply NoDup_app. by split_and!.
  - f_equal. lia.
  - f_equal. lia.
  - f_equal. lia.
Qed.

(** ** [task_done] and [unfinished_tasks] *)

Lemma busy_lookup (ws : list worker_state) (i : nat) (st : worker_state) :
  ws !! i = Some st → holds_event st ≤ busy ws.
Proof.
  revert i. induction ws as [|st0 ws IH]; intros [|i] Hi; simpl in *; try done.
  - injection Hi as ->. pose proof (busy_nonneg ws). lia.
  - specialize (IH i Hi). destruct st0; simpl; lia.
Qed.

Lemma worker_done_counts (worker_id : Z) (q : Queue) (w : World) :
  0 < unfinished_tasks q →
  worker_done worker_id q w =
    (mkQueue (maxsize q) (items q) (unfinished_tasks q - 1), w).
Proof.
  intros Hpos. unfold worker_done, task_done.
  destruct (Z.leb_spec (unfinished_tasks q) 0); [lia|done].
Qed.

Lemma exec_owed (a : action) (s s' : System) (v : view) :
  view_of s = Some v →
  owed s ≤ unfinished_tasks (event_queue s) →
  exec a s = Some s' →
  owed s' ≤ unfinished_tasks (event_queue s') ∧
  (engine_completes a = true →
   unfinished_tasks (event_queue s') - owed s' = unfinished_tasks (event_queue s) - owed s).
Proof.
  intros Hv Howed Hexec. apply view_of_Some in Hv.
  destruct v as [r u d rows m q ws ps]; simpl in Hv.
  destruct Hv as (Hr & Hu & Hd & Hrows & Hm & Hq & Hws & Hps).
  destruct s as [w qu self wks pts]; simpl in *.
  unfold received, unique_processed, duplicate_dropped, owed, qsize in *; simpl in *.
  destruct qu as [m' q' uf]; simpl in *. subst wks pts m' q'.
  destruct a as [event | n | i io]; simpl in Hexec.
  - unfold publish_event, Queue_put in Hexec. rewrite full_no_room in Hexec; simpl in Hexec.
    destruct (no_room m q) eqn:Hroom; injection Hexec as <-; simpl;
      rewrite ?length_app; simpl; lia.
  - destruct (ps !! n) as [event|] eqn:Hn; simpl in Hexec; [|done].
    unfold publish_event, Queue_put in Hexec. rewrite full_no_room in Hexec; simpl in Hexec.
    destruct (no_room m q) eqn:Hroom; injection Hexec as <-; simpl;
      rewrite ?length_app; simpl; lia.
  - destruct (ws !! i) as [st|] eqn:Hi; simpl in Hexec; [|done].
    pose proof (busy_lookup _ _ _ Hi) as Hbusy.
    destruct st as [|event|event]; simpl in Hexec, Hbusy.
    + unfold Queue_get in Hexec; simpl in Hexec.
      destruct q as [|event q'].
      * injection Hexec as <-. simpl. rewrite list_insert_id by done. lia.
      * rewrite (process_received_runs _ _ r Hr) in Hexec.
        injection Hexec as <-. simpl. rewrite (busy_insert _ _ _ _ Hi). simpl in *. lia.
    + destruct io as [|e].
      * destruct (decide (key_of event ∈ rows)) as [Hin | Hnotin].
        -- destruct (process_check_duplicate self event (Z.of_nat i) w rows d)
             as [rec Hpc]; [done..|].
           rewrite Hpc, worker_done_counts in Hexec by (simpl; lia).
           injection Hexec as <-. simpl. rewrite (busy_insert _ _ _ _ Hi). simpl. lia.
        -- rewrite (process_check_new _ _ _ _ rows) in Hexec by done.
           injection Hexec as <-. simpl. rewrite (busy_insert _ _ _ _ Hi). simpl. lia.
      * rewrite process_check_fault in Hexec.
        injection Hexec as <-. simpl. rewrite (busy_insert _ _ _ _ Hi). simpl.
        split; [lia|done].
    + destruct io as [|e].
      * destruct (decide (key_of event ∈ rows)) as [Hin | Hnotin].
        -- destruct (process_mark_lost self event (Z.of_nat i) w rows d)
             as (r1 & r2 & r3 & Hpm); [done..|].
           rewrite Hpm, worker_done_counts in Hexec by (simpl; lia).
           injection Hexec as <-. simpl. rewrite (busy_insert _ _ _ _ Hi). simpl. lia.
        -- destruct (process_mark_new self event (Z.of_nat i) w rows u)
             as (r1 & r2 & r3 & Hpm); [done..|].
           rewrite Hpm, worker_done_counts in Hexec by (simpl; lia).
           injection Hexec as <-. simpl. rewrite (busy_insert _ _ _ _ Hi). simpl. lia.
      * rewrite (process_mark_fault _ _ _ _ _ d) in Hexec by done.
        rewrite worker_done_counts in Hexec by (simpl; lia).
        injection Hexec as <-. simpl. rewrite (busy_insert _ _ _ _ Hi). simpl.
        split; [lia|done].
Qed.

Lemma run_owed (sched : list action) (s s' : System) (v : view) :
  view_of s = Some v →
  owed s ≤ unfinished_tasks (event_queue s) →
  run sched s = Some s' →
  owed s' ≤ unfinished_tasks (event_queue s') ∧
  (fault_free sched = true →
   unfinished_tasks (event_queue s') - owed s' = unfinished_tasks (event_queue s) - owed s).
Proof.
  revert s v. induction sched as [|a sched IH]; intros s v Hv Howed Hrun; simpl in Hrun.
  - injection Hrun as <-. done.
  - destruct (exec a s) as [s1|] eqn:Hexec; simpl in Hrun; [|done].
    destruct (exec_refines _ _ _ _ Hv Hexec) as (_ & _ & v1 & Hv1 & _).
    destruct (exec_owed _ _ _ _ Hv Howed Hexec) as [Howed1 Heq1].
    destruct (IH s1 v1 Hv1 Howed1 Hrun) as [Howed' Heq'].
    split; [done|]. intros [Ha Hff]%andb_true_iff. rewrite Heq', Heq1; done.
Qed.

Lemma lifespan_queue (cfg : Config) (io : sqlite_io) (w0 : World) (s0 : System) :
  lifespan cfg io w0 = Return s0 →
  event_queue s0 = Queue_new (QUEUE_MAX_SIZE cfg).
Proof.
  unfold lifespan.
  match goal with |- context [match ?c with _ => _ end] => destruct c as [[p|e] w'] end;
    [|done].
  by intros [= <-].
Qed.

(** X11.  The queue's [unfinished_tasks] never falls below the number of
    events that are queued or held by a worker, so the [task_done] that
    ends a round never raises its "called too many times" error.  In a run
    without engine faults the two numbers are equal, and at rest
    [unfinished_tasks] is 0, which is when [queue.join()] returns. *)
Theorem unfinished_tasks_counts_open_rounds
    (cfg : Config) (w0 : World) (s0 : System) (sched : list action) (s : System) :
  lifespan cfg Completes w0 = Return s0 →
  run sched s0 = Some s →
  owed s ≤ unfinished_tasks (event_queue s) ∧
  (∀ (i : nat) (st : worker_state),
     workers s !! i = Some st → st ≠ Idle →
     task_done (event_queue s) =
       Return (mkQueue (maxsize (event_queue s)) (items (event_queue s))
                 (unfinished_tasks (event_queue s) - 1))) ∧
  (fault_free sched = true → unfinished_tasks (event_queue s) = owed s) ∧
  (fault_free sched = true → quiescent s → unfinished_tasks (event_queue s) = 0).
Proof.
  intros Hstart Hrun.
  pose proof (lifespan_view _ _ _ Hstart) as Hv0.
  assert (H0 : owed s0 = 0 ∧ unfinished_tasks (event_queue s0) = 0).
  { apply view_of_Some in Hv0 as (_ & _ & _ & _ & _ & Hq & Hws & _). simpl in *.
    unfold owed, qsize. rewrite Hq, Hws, busy_replicate_idle.
    by rewrite (lifespan_queue _ _ _ _ Hstart). }
  destruct H0 as [Ho0 Hu0].
  destruct (run_owed _ _ _ _ Hv0 ltac:(lia) Hrun) as [Howed Heq].
  split_and!.
  - done.
  - intros i st Hi Hst. unfold task_done.
    pose proof (busy_lookup _ _ _ Hi) as Hb. unfold owed, qsize in Howed.
    destruct (Z.leb_spec (unfinished_tasks (event_queue s)) 0); [|done].
    destruct st; simpl in Hb; [done|lia|lia].
  - intros Hff. specialize (Heq Hff). lia.
  - intros Hff (Hq & _ & Hidle). specialize (Heq Hff).
    unfold owed, qsize in *. rewrite Hq, (busy_idle _ Hidle) in Heq. simpl in Heq. lia.
Qed.

(** A round that ends with an exception skips [task_done]: each failed
    existence check leaves one task unfinished. *)
Lemma exec_unfinished (a : action) (s s' : System) (v : view) :
  view_of s = Some v →
  owed s ≤ unfinished_tasks (event_queue s) →
  exec a s = Some s' →
  unfinished_tasks (event_queue s') - owed s' =
  unfinished_tasks (event_queue s) - owed s + (if check_fails a s then 1 else 0).
Proof.
  intros Hv Howed Hexec.
  destruct a as [event | n | i [|e]].
  1-3: destruct (exec_owed _ _ _ _ Hv Howed Hexec) as [_ Heq];
       rewrite Heq by done; simpl; lia.
  apply view_of_Some in Hv.
  destruct v as [r u d rows m q ws ps]; simpl in Hv.
  destruct Hv as (Hr & Hu & Hd & Hrows & Hm & Hq & Hws & Hps).
  destruct s as [w qu self wks pts]; simpl in *.
  unfold received, unique_processed, duplicate_dropped, owed, qsize in *; simpl in *.
  destruct qu as [m' q' uf]; simpl in *. subst wks pts m' q'.
  destruct (ws !! i) as [st|] eqn:Hi; simpl in Hexec; [|done].
  pose proof (busy_lookup _ _ _ Hi) as Hbusy.
  destruct st as [|event|event]; simpl in Hexec, Hbusy.
  - unfold Queue_get in Hexec; simpl in Hexec.
    destruct q as [|event q'].
    + injection Hexec as <-. simpl. rewrite list_insert_id by done. lia.
    + rewrite (process_received_runs _ _ r Hr) in Hexec.
      injection Hexec as <-. simpl. rewrite (busy_insert _ _ _ _ Hi). simpl in *. lia.
  - injection Hexec as <-. simpl. rewrite (busy_insert _ _ _ _ Hi). simpl. lia.
  - rewrite (process_mark_fault _ _ _ _ _ d) in Hexec by done.
    rewrite worker_done_counts in Hexec by (simpl; lia).
    injection Hexec as <-. simpl. rewrite (busy_insert _ _ _ _ Hi). simpl. lia.
Qed.

Lemma run_unfinished (sched : list action) (s s' : System) (v : view) :
  view_of s = Some v →
  owed s ≤ unfinished_tasks (event_queue s) →
  run sched s = Some s' →
  unfinished_tasks (event_queue s') - owed s' =
  unfinished_tasks (event_queue s) - owed s + failed_checks sched s.
Proof.
  revert s v. induction sched as [|a sched IH]; intros s v Hv Howed Hrun; simpl in *.
  - injection Hrun as <-. lia.
  - destruct (exec a s) as [s1|] eqn:Hexec; simpl in Hrun; [|done].
    destruct (exec_refines _ _ _ _ Hv Hexec) as (_ & _ & v1 & Hv1 & _).
    destruct (exec_owed _ _ _ _ Hv Howed Hexec) as [Howed1 _].
    rewrite (IH s1 v1 Hv1 Howed1 Hrun), (exec_unfinished _ _ _ _ Hv Howed Hexec). lia.
Qed.

(** X8.  A round of a worker that ends with an exception is not counted as
    done.  When the existence check of the event in hand fails, the loop's
    [except Exception] logs ["Worker i error: ..."] at level ERROR, the
    [task_done] of the round is skipped and the worker waits for the next
    event, the queue as it was.  So in every run, whatever the engine
    fails, the queue's [unfinished_tasks] is the number of events queued
    or in the hands of a worker plus the number of failed existence
    checks: after one such failure it never comes back to 0. *)
Theorem failed_round_is_logged_and_left_unfinished
    (cfg : Config) (w0 : World) (s0 : System) (sched : list action) (s : System) :
  lifespan cfg Completes w0 = Return s0 →
  run sched s0 = Some s →
  unfinished_tasks (event_queue s) = owed s + failed_checks sched s0 ∧
  ∀ (i : nat) (event : Event) (e : exn),
    workers s !! i = Some (Checking event) →
    ∃ s' : System,
      exec (Work i (Faults e)) s = Some s' ∧
      logs (world s') =
        logs (world s) ++
        [LogRecord ERROR ("Worker " +:+ pretty (Z.of_nat i) +:+ " error: " +:+ exn_msg e)] ∧
      event_queue s' = event_queue s ∧
      workers s' = <[i := Idle]> (workers s) ∧
      unfinished_tasks (event_queue s') = owed s' + failed_checks sched s0 + 1.
Proof.
  intros Hstart Hrun.
  pose proof (lifespan_view _ _ _ Hstart) as Hv0.
  assert (H0 : owed s0 = 0 ∧ unfinished_tasks (event_queue s0) = 0).
  { apply view_of_Some in Hv0 as (_ & _ & _ & _ & _ & Hq & Hws & _). simpl in *.
    unfold owed, qsize. rewrite Hq, Hws, busy_replicate_idle.
    by rewrite (lifespan_queue _ _ _ _ Hstart). }
  destruct H0 as [Ho0 Hu0].
  pose proof (run_unfinished _ _ _ _ Hv0 ltac:(lia) Hrun) as Heq.
  assert (Hunf : unfinished_tasks (event_queue s) = owed s + failed_checks sched s0) by lia.
  split; [done|].
  intros i event e Hi.
  assert (Hexec : exec (Work i (Faults e)) s =
    Some (mkSystem (worker_caught (Z.of_nat i) e (world s)).2 (event_queue s) (processor s)
            (<[i := Idle]> (workers s)) (putters s))).
  { simpl. rewrite Hi. done. }
  eexists. split; [exact Hexec|]. simpl. split_and!; try done.
  rewrite Hunf. unfold owed; simpl. rewrite (busy_insert _ _ _ _ Hi). simpl. lia.
Qed.

(** ** The batch handler *)

Lemma publish_batch_loop_outcome (events : list Event) (accepted rejected : Z)
    (q : Queue) (w : World) :
  (∃ q' : Queue,
     publish_batch_loop events accepted rejected q w =
       Responds (Return (accepted + Z.of_nat (length events), rejected)) q' w ∧
     maxsize q' = maxsize q ∧
     items q' = items q ++ events ∧
     unfinished_tasks q' = unfinished_tasks q + Z.of_nat (length events)) ∨
  (∃ (q' : Queue) (n : nat),
     publish_batch_loop events accepted rejected q w = Suspends q' w ∧
     (n < length events)%nat ∧
     maxsize q' = maxsize q ∧
     items q' = items q ++ take n events ∧
     full q' = true).
Proof.
  revert accepted q. induction events as [|event events IH]; intros accepted q; simpl.
  - left. exists q. rewrite app_nil_r.
    change (Z.of_nat (length (@nil Event))) with 0. rewrite !Z.add_0_r. done.
  - unfold Queue_put. destruct (full q) eqn:Hfull.
    + right. exists q, 0%nat. simpl. rewrite app_nil_r. split_and!; try done. lia.
    + destruct (IH (accepted + 1)
                  (mkQueue (maxsize q) (items q ++ [event]) (unfinished_tasks q + 1)))
        as [(q' & -> & Hm & Hi & Hu)|(q' & n & -> & Hn & Hm & Hi & Hf)]; simpl in *.
      * left. exists q'. rewrite Hi, Hu, <- app_assoc. simpl.
        split_and!; try done; [do 3 f_equal|]; lia.
      * right. exists q', (S n). rewrite Hi, <- app_assoc. simpl.
        split_and!; try done. lia.
Qed.

(** X12.  The batch handler puts the events on the queue in the order of
    the batch.  When it responds, all of them are queued behind the events
    already there and the report counts each as accepted and none as
    rejected; otherwise it is suspended at the first event for which the
    queue is full, with the events before that one queued and nothing
    logged.  It responds whenever the queue is unbounded or has room for
    the whole batch. *)
Theorem publish_batch_admits_in_order (events : list Event) (q : Queue) (w : World) :
  (match publish_batch events q w with
   | Responds r q' w' =>
       r = Return (mkBatchReport (Z.of_nat (length events)) 0 (Z.of_nat (length events))) ∧
       items q' = items q ++ events ∧
       unfinished_tasks q' = unfinished_tasks q + Z.of_nat (length events)
   | Suspends q' w' =>
       ∃ n : nat, (n < length events)%nat ∧ items q' = items q ++ take n events ∧
                  full q' = true ∧ w' = w
   end) ∧
  (maxsize q ≤ 0 ∨ qsize q + Z.of_nat (length events) ≤ maxsize q →
   ∃ (report : BatchReport) (q' : Queue) (w' : World),
     publish_batch events q w = Responds (Return report) q' w').
Proof.
  unfold publish_batch.
  destruct (publish_batch_loop_outcome events 0 0 q w)
    as [(q' & -> & Hm & Hi & Hu)|(q' & n & -> & Hn & Hm & Hi & Hf)]; simpl.
  - split; [split_and!; try done|eauto].
  - split; [eauto|]. intros Hroom. exfalso.
    unfold full, qsize in *. rewrite Hm, Hi, length_app, length_take in Hf.
    destruct (Z.leb_spec (maxsize q) 0); [done|].
    apply Z.leb_le in Hf. lia.
Qed.

(** ** [_process_event] from start to end *)

(** X13.  One [_process_event] that runs without interruption counts the
    event in [received] in every case.  When the existence check fails, the
    exception leaves the function and nothing else changes.  Otherwise the
    function returns: for a pair in the table, [duplicate_dropped] grows by
    one; for a new pair whose insert the engine completes,
    [unique_processed] grows by one and the pair is appended to the table;
    for a new pair whose insert fails, [duplicate_dropped] grows by one and
    the table stays as it is. *)
Theorem process_event_outcome
    (self : EventProcessor) (event : Event) (worker_id : Z)
    (io_check io_mark : sqlite_io) (w : World)
    (r u d : Z) (rows : list (string * string)) :
  counter "received" self w = Some r →
  counter "unique_processed" self w = Some u →
  counter "duplicate_dropped" self w = Some d →
  store (database self) w = Some rows →
  ∃ (outcome : result unit) (w' : World),
    _process_event self event worker_id io_check io_mark w = (outcome, w') ∧
    counter "received" self w' = Some (r + 1) ∧
    match io_check with
    | Faults e =>
        outcome = Raise e ∧
        counter "unique_processed" self w' = Some u ∧
        counter "duplicate_dropped" self w' = Some d ∧
        store (database self) w' = Some rows
    | Completes =>
        outcome = Return tt ∧
        if bool_decide (key_of event ∈ rows)
        then counter "unique_processed" self w' = Some u ∧
             counter "duplicate_dropped" self w' = Some (d + 1) ∧
             store (database self) w' = Some rows
        else match io_mark with
             | Completes =>
                 counter "unique_processed" self w' = Some (u + 1) ∧
                 counter "duplicate_dropped" self w' = Some d ∧
                 store (database self) w' = Some (rows ++ [key_of event])
             | Faults _ =>
                 counter "unique_processed" self w' = Some u ∧
                 counter "duplicate_dropped" self w' = Some (d + 1) ∧
                 store (database self) w' = Some rows
             end
    end.
Proof.
  intros Hr Hu Hd Hrows. rewrite _process_event_stretches.
  rewrite (process_received_runs _ _ r Hr).
  set (w1 := bump "received" self w).
  assert (Hr1 : counter "received" self w1 = Some (r + 1))
    by (unfold w1; by rewrite (counter_bump _ _ _ _ r)).
  assert (Hu1 : counter "unique_processed" self w1 = Some u)
    by (unfold w1; by rewrite (counter_bump _ _ _ _ r)).
  assert (Hd1 : counter "duplicate_dropped" self w1 = Some d)
    by (unfold w1; by rewrite (counter_bump _ _ _ _ r)).
  assert (Hrows1 : store (database self) w1 = Some rows)
    by (unfold w1; by rewrite store_bump).
  destruct io_check as [|e].
  - case_bool_decide as Hkey.
    + destruct (process_check_duplicate self event worker_id w1 rows d) as [rec ->]; [done..|].
      eexists _, _. split; [done|].
      rewrite !counter_add_log, store_add_log, store_bump, !(counter_bump _ _ _ _ d) by done.
      done.
    + rewrite (process_check_new _ _ _ _ rows) by done.
      destruct io_mark as [|e].
      * destruct (process_mark_new self event worker_id w1 rows u)
          as (r1 & r2 & r3 & ->); [done..|].
        eexists _, _. split; [done|].
        rewrite !counter_add_log, store_add_log, store_bump, !(counter_bump _ _ _ _ u) by done.
        split_and!; try done. unfold store; simpl. by rewrite lookup_insert_eq.
      * rewrite (process_mark_fault _ _ _ _ _ d) by done.
        eexists _, _. split; [done|].
        rewrite !counter_add_log, store_add_log, store_bump, !(counter_bump _ _ _ _ d) by done.
        done.
  - rewrite process_check_fault. eexists _, _. split; [done|]. done.
Qed.

(** ** Restart *)

Lemma lifespan_completes (cfg : Config) (w : World) :
  ∃ s0 : System, lifespan cfg Completes w = Return s0.
Proof.
  unfold lifespan, mbind, Py_bind; simpl. rewrite Database_new_completes.
  unfold EventProcessor_new, dict_new, mbind, Py_bind, mret, Py_ret; simpl.
  match goal with
  | |- context [workers_started ?n ?z ?w] =>
      destruct (workers_started_logs n z w) as (w' & -> & _ & _)
  end.
  eauto.
Qed.

(** X14.  Starting the application again on the files the process left
    behind succeeds.  The table has the rows it had; the counters are back
    at zero, the queue is empty and all workers are idle, so the events
    that were queued, waiting to be queued or held by a worker are gone. *)
Theorem restart_resets_counters_keeps_rows (cfg : Config) (s : System) (v : view) :
  view_of s = Some v →
  db_path (database (processor s)) = DEDUP_DB_PATH cfg →
  ∃ s1 : System,
    lifespan cfg Completes (restart (world s)) = Return s1 ∧
    view_of s1 =
      Some (mkView 0 0 0 (v_rows v) (QUEUE_MAX_SIZE cfg) []
              (replicate (Z.to_nat (CONSUMER_WORKERS cfg)) Idle) []).
Proof.
  intros Hv Hpath.
  destruct (lifespan_completes cfg (restart (world s))) as [s1 Hs1].
  exists s1. split; [done|].
  rewrite (lifespan_view _ _ _ Hs1). simpl.
  apply view_of_Some in Hv as (_ & _ & _ & Hrows & _).
  unfold store in Hrows. rewrite Hpath in Hrows. by rewrite Hrows.
Qed.

(** ** The reporting handlers *)

Lemma sorted_is_sorted (l : list string) : Sorted String.le (sorted l).
Proof. apply Sorted_merge_sort. apply _. Qed.

Lemma sorted_elem_of (l : list string) (x : string) : x ∈ sorted l ↔ x ∈ l.
Proof. unfold sorted. by rewrite merge_sort_Permutation. Qed.

Lemma sorted_NoDup (l : list string) : NoDup l → NoDup (sorted l).
Proof. unfold sorted. by rewrite merge_sort_Permutation. Qed.

Lemma dict_getitem_Some (d : nat) (k : string) (m : gmap string Z) (v : Z) (w : World) :
  heap w !! d = Some m → m !! k = Some v → dict_getitem d k w = (Return v, w).
Proof. intros Hd Hk. unfold dict_getitem. by rewrite Hd, Hk. Qed.

(** X15.  GET /stats changes neither the files nor the counters.  When the
    engine completes the topic query, the reply carries the three counters as
    they are, the uptime it was given, and the topics of the table in
    ascending order, each once.  When the query fails, the handler logs the
    error and raises HTTP 500 with the engine's message. *)
Theorem stats_endpoint_reports {float : Type}
    (processor_ : EventProcessor) (io : sqlite_io) (uptime : float) (w : World)
    (r u d : Z) (rows : list (string * string)) :
  counter "received" processor_ w = Some r →
  counter "unique_processed" processor_ w = Some u →
  counter "duplicate_dropped" processor_ w = Some d →
  store (database processor_) w = Some rows →
  ∃ (outcome : result (StatsResponse float)) (w' : World),
    get_stats_endpoint processor_ io uptime w = (outcome, w') ∧
    disk w' = disk w ∧
    counter "received" processor_ w' = Some r ∧
    counter "unique_processed" processor_ w' = Some u ∧
    counter "duplicate_dropped" processor_ w' = Some d ∧
    match io with
    | Completes =>
        ∃ topics : list string,
          outcome = Return (mkStatsResponse r u d topics uptime) ∧
          Sorted String.le topics ∧ NoDup topics ∧
          ∀ topic_ : string, topic_ ∈ topics ↔ ∃ event_id_ : string, (topic_, event_id_) ∈ rows
    | Faults e =>
        outcome = Raise (Exn (HTTPException 500) (exn_msg e)) ∧
        logs w' = logs w ++ [LogRecord ERROR ("Error fetching stats: " +:+ exn_msg e)]
    end.
Proof.
  intros Hr Hu Hd Hrows.
  unfold counter in Hr, Hu, Hd.
  destruct (heap w !! stats processor_) as [m|] eqn:Hm; simpl in *; [|done].
  pose proof (lookup_lt_Some _ _ _ Hm) as Hlt.
  set (w1 := set_heap (λ h, h ++ [m]) w).
  assert (Hcopy : get_stats processor_ w = (Return (length (heap w)), w1)).
  { unfold get_stats, dict_copy, dict_new. by rewrite Hm. }
  assert (Hsnap : heap w1 !! length (heap w) = Some m).
  { unfold w1; simpl. by rewrite lookup_app_r, Nat.sub_diag by done. }
  assert (Hkeep : ∀ k, counter k processor_ w1 = m !! k).
  { intros k. unfold counter, w1; simpl. rewrite lookup_app_l by done. by rewrite Hm. }
  unfold get_stats_endpoint, try_except, mbind, Py_bind. rewrite Hcopy.
  destruct io as [|e].
  - rewrite (get_all_topics_completes _ _ rows) by done.
    rewrite (dict_getitem_Some _ _ m r), (dict_getitem_Some _ _ m u),
      (dict_getitem_Some _ _ m d) by done. simpl.
    eexists _, _. split; [done|]. rewrite !Hkeep. split_and!; try done.
    eexists. split; [done|]. split_and!.
    + apply sorted_is_sorted.
    + apply sorted_NoDup, NoDup_elements.
    + intros t. rewrite sorted_elem_of, elem_of_elements, elem_of_list_to_set,
        elem_of_remove_dups, list_elem_of_fmap. split.
      * intros ([t' e] & -> & Hin). by exists e.
      * intros [e He]. by exists (t, e).
  - simpl. eexists _, _. split; [done|]. simpl.
    unfold counter; simpl. rewrite lookup_app_l by done. rewrite Hm; simpl. done.
Qed.

(** ** Which events are built *)

Section EventAcceptance.

Context (parse_iso : string → option datetime).
Context (topic_ event_id_ timestamp_ source_ : string) (payload_ : gmap string PyAny).









End EventAcceptance.

(** ** The further statements on the small instance *)

Lemma store_keeps_pairs_unique_witness :
  store demo_db (store_calls demo_db demo_calls demo_store) =
    Some [("user.login", "evt_1"); ("user.logout", "evt_2")] ∧
  NoDup [("user.login", "evt_1"); ("user.logout", "evt_2")].
Proof.
  split; [vm_compute; reflexivity|].
  apply (store_keeps_pairs_unique demo_db demo_calls demo_store).
  - intros rows H. vm_compute in H. injection H as <-. constructor.
  - vm_compute; reflexivity.
Defined.

Lemma gather_marks_one_success_per_new_pair_witness :
  ∃ (results : list bool) (w' : World) (rows' : list (string * string)),
    gather_mark_processed demo_db
      [("user.login", "evt_1"); ("user.login", "evt_1"); ("user.login", "evt_1")]
      demo_store = (Return results, w') ∧
    length results = 3%nat ∧
    success_count results =
      Z.of_nat (size (list_to_set [("user.login", "evt_1"); ("user.login", "evt_1");
                                   ("user.login", "evt_1")] ∖ list_to_set []
                      : gset (string * string))) ∧
    store demo_db w' = Some rows' ∧
    (list_to_set rows' : gset (string * string)) =
      list_to_set [] ∪ list_to_set [("user.login", "evt_1"); ("user.login", "evt_1");
                                    ("user.login", "evt_1")] ∧
    get_count demo_db Completes w' = (Return (0 + success_count results), w').
Proof.
  apply (gather_marks_one_success_per_new_pair demo_db
           [("user.login", "evt_1"); ("user.login", "evt_1"); ("user.login", "evt_1")]
           demo_store []).
  vm_compute; reflexivity.
Defined.

Lemma mark_processed_again_witness :
  ∃ (first found second : bool) (w1 w2 : World),
    mark_processed demo_db "user.login" "evt_1" (Faults locked) demo_store =
      (Return first, w1) ∧
    is_processed demo_db "user.login" "evt_1" Completes w1 = (Return found, w1) ∧
    mark_processed demo_db "user.login" "evt_1" Completes w1 = (Return second, w2) ∧
    first = false ∧ disk w1 = disk demo_store ∧
    found = bool_decide (("user.login", "evt_1") ∈ @nil (string * string)) ∧
    second = negb found.
Proof.
  apply (mark_processed_again demo_db "user.login" "evt_1" (Faults locked) demo_store []).
  vm_compute; reflexivity.
Defined.

Lemma clear_forgets_every_pair_witness :
  ∃ w' : World,
    clear demo_db Completes demo_marked = (Return tt, w') ∧
    get_count demo_db Completes w' = (Return 0, w') ∧
    get_all_topics demo_db Completes w' = (Return ∅, w') ∧
    heap w' = heap demo_marked ∧
    ∀ topic_ event_id_ : string,
      is_processed demo_db topic_ event_id_ Completes w' = (Return false, w') ∧
      (mark_processed demo_db topic_ event_id_ Completes w').1 = Return true.
Proof.
  apply (clear_forgets_every_pair demo_db demo_marked [("user.login", "evt_1")]).
  vm_compute; reflexivity.
Defined.

Lemma topics_are_those_with_a_processed_event_witness :
  ∃ topics : gset string,
    get_all_topics demo_db Completes demo_marked = (Return topics, demo_marked) ∧
    (∀ topic_ : string,
       topic_ ∈ topics ↔
       ∃ event_id_ : string,
         is_processed demo_db topic_ event_id_ Completes demo_marked =
           (Return true, demo_marked)) ∧
    (size topics ≤ 1)%nat.
Proof.
  apply (topics_are_those_with_a_processed_event demo_db demo_marked
           [("user.login", "evt_1")]).
  vm_compute; reflexivity.
Defined.

Lemma store_without_table_witness :
  is_processed demo_db "user.login" "evt_1" Completes demo_world =
    (Raise no_such_table, demo_world) ∧
  get_count demo_db Completes demo_world = (Raise no_such_table, demo_world) ∧
  get_all_topics demo_db Completes demo_world = (Raise no_such_table, demo_world) ∧
  clear demo_db Completes demo_world = (Raise no_such_table, demo_world) ∧
  (∃ w' : World,
     mark_processed demo_db "user.login" "evt_1" Completes demo_world = (Return false, w') ∧
     disk w' = disk demo_world ∧ heap w' = heap demo_world) ∧
  (∃ w' : World,
     Database_new (db_path demo_db) Completes demo_world = (Return demo_db, w') ∧
     store demo_db w' = Some []).
Proof.
  apply (store_without_table demo_db "user.login" "evt_1" demo_world).
  vm_compute; reflexivity.
Defined.

Lemma queue_never_over_capacity_witness :
  maxsize (event_queue demo_full) = QUEUE_MAX_SIZE demo_cfg ∧
  (0 < QUEUE_MAX_SIZE demo_cfg → qsize (event_queue demo_full) ≤ QUEUE_MAX_SIZE demo_cfg) ∧
  (QUEUE_MAX_SIZE demo_cfg ≤ 0 → putters demo_full = []).
Proof.
  apply (queue_never_over_capacity demo_cfg demo_world demo_start
           [Publish demo_event; Publish demo_event] demo_full);
    vm_compute; reflexivity.
Defined.

Lemma failed_round_is_logged_and_left_unfinished_witness :
  workers demo_checking !! 1%nat = Some (Checking demo_event) ∧
  unfinished_tasks (event_queue demo_checking) =
    owed demo_checking + failed_checks demo_checking_sched demo_start ∧
  ∀ (i : nat) (event : Event) (e : exn),
    workers demo_checking !! i = Some (Checking event) →
    ∃ s' : System,
      exec (Work i (Faults e)) demo_checking = Some s' ∧
      logs (world s') =
        logs (world demo_checking) ++
        [LogRecord ERROR ("Worker " +:+ pretty (Z.of_nat i) +:+ " error: " +:+ exn_msg e)] ∧
      event_queue s' = event_queue demo_checking ∧
      workers s' = <[i := Idle]> (workers demo_checking) ∧
      unfinished_tasks (event_queue s') =
        owed s' + failed_checks demo_checking_sched demo_start + 1.
Proof.
  split; [vm_compute; reflexivity|].
  apply (failed_round_is_logged_and_left_unfinished demo_cfg demo_world demo_start
           demo_checking_sched demo_checking);
    vm_compute; reflexivity.
Defined.


Lemma unique_counts_the_new_pairs_witness :
  ∃ (rows : list (string * string)) (new : nat),
    new = size (list_to_set (key_of <$> published demo_sched) ∖
                list_to_set (default [] (disk demo_world !! DEDUP_DB_PATH demo_cfg))
                : gset (string * string)) ∧
    store (database (processor demo_end)) (world demo_end) = Some rows ∧
    NoDup rows ∧
    (list_to_set rows : gset (string * string)) =
      list_to_set (default [] (disk demo_world !! DEDUP_DB_PATH demo_cfg)) ∪
      list_to_set (key_of <$> published demo_sched) ∧
    received demo_end = Some (Z.of_nat (length (published demo_sched))) ∧
    unique_processed demo_end = Some (Z.of_nat new) ∧
    duplicate_dropped demo_end = Some (Z.of_nat (length (published demo_sched)) - Z.of_nat new).
Proof.
  apply (unique_counts_the_new_pairs demo_cfg demo_world demo_start demo_sched demo_end).
  - vm_compute; reflexivity.
  - vm_compute. constructor.
  - vm_compute; reflexivity.
  - vm_compute; reflexivity.
  - vm_compute. repeat constructor.
Defined.

Lemma unfinished_tasks_counts_open_rounds_witness :
  owed demo_marking ≤ unfinished_tasks (event_queue demo_marking) ∧
  (∀ (i : nat) (st : worker_state),
     workers demo_marking !! i = Some st → st ≠ Idle →
     task_done (event_queue demo_marking) =
       Return (mkQueue (maxsize (event_queue demo_marking)) (items (event_queue demo_marking))
                 (unfinished_tasks (event_queue demo_marking) - 1))) ∧
  (fault_free [Publish demo_event; Work 0 Completes; Work 0 Completes] = true →
   unfinished_tasks (event_queue demo_marking) = owed demo_marking) ∧
  (fault_free [Publish demo_event; Work 0 Completes; Work 0 Completes] = true →
   quiescent demo_marking → unfinished_tasks (event_queue demo_marking) = 0).
Proof.
  apply (unfinished_tasks_counts_open_rounds demo_cfg demo_world demo_start
           [Publish demo_event; Work 0 Completes; Work 0 Completes] demo_marking);
    vm_compute; reflexivity.
Defined.

Lemma publish_batch_admits_in_order_witness :
  ∃ (report : BatchReport) (q' : Queue) (w' : World),
    publish_batch [demo_event; demo_event] (Queue_new 2) demo_world =
      Responds (Return report) q' w'.
Proof.
  apply (publish_batch_admits_in_order [demo_event; demo_event] (Queue_new 2) demo_world).
  right. vm_compute. discriminate.
Defined.

Lemma process_event_outcome_witness :
  ∃ (outcome : result unit) (w' : World),
    _process_event (processor demo_start) demo_event 0 Completes Completes
      (world demo_start) = (outcome, w') ∧
    counter "received" (processor demo_start) w' = Some (0 + 1) ∧
    outcome = Return tt ∧
    if bool_decide (key_of demo_event ∈ @nil (string * string))
    then counter "unique_processed" (processor demo_start) w' = Some 0 ∧
         counter "duplicate_dropped" (processor demo_start) w' = Some (0 + 1) ∧
         store (database (processor demo_start)) w' = Some []
    else counter "unique_processed" (processor demo_start) w' = Some (0 + 1) ∧
         counter "duplicate_dropped" (processor demo_start) w' = Some 0 ∧
         store (database (processor demo_start)) w' = Some ([] ++ [key_of demo_event]).
Proof.
  apply (process_event_outcome (processor demo_start) demo_event 0 Completes Completes
           (world demo_start) 0 0 0 []);
    vm_compute; reflexivity.
Defined.

Lemma restart_resets_counters_keeps_rows_witness :
  ∃ s1 : System,
    lifespan demo_cfg Completes (restart (world demo_end)) = Return s1 ∧
    view_of s1 =
      Some (mkView 0 0 0 [("user.login", "evt_1")] (QUEUE_MAX_SIZE demo_cfg) []
              (replicate (Z.to_nat (CONSUMER_WORKERS demo_cfg)) Idle) []).
Proof.
  apply (restart_resets_counters_keeps_rows demo_cfg demo_end
           (mkView 3 1 2 [("user.login", "evt_1")] 2 [] [Idle; Idle] []));
    vm_compute; reflexivity.
Defined.

Lemma stats_endpoint_reports_witness :
  ∃ (outcome : result (StatsResponse Z)) (w' : World),
    get_stats_endpoint (processor demo_end) Completes 12 (world demo_end) = (outcome, w') ∧
    disk w' = disk (world demo_end) ∧
    counter "received" (processor demo_end) w' = Some 3 ∧
    counter "unique_processed" (processor demo_end) w' = Some 1 ∧
    counter "duplicate_dropped" (processor demo_end) w' = Some 2 ∧
    ∃ topics : list string,
      outcome = Return (mkStatsResponse 3 1 2 topics 12) ∧
      Sorted String.le topics ∧ NoDup topics ∧
      ∀ topic_ : string,
        topic_ ∈ topics ↔
        ∃ event_id_ : string, (topic_, event_id_) ∈ [("user.login", "evt_1")].
Proof.
  apply (stats_endpoint_reports (processor demo_end) Completes 12 (world demo_end)
           3 1 2 [("user.login", "evt_1")]);
    vm_compute; reflexivity.
Defined.
